(** * gutenberg-controls: the repeater's list operations and the colour popover

    A shallow embedding of
    - [src/controls/repeater/index.tsx] (component [Repeater]): the handlers
      [handleDragEnd], [addItem], [removeItem], [duplicateItem],
      [toggleCollapse], the derived flag [isDisabledRemove] and the
      scroll-to-new [useEffect];
    - the colour [Popover] component and its [onChange].

    Conventions.  A handler is embedded as the list of calls it makes, in
    program order, to the setters it closes over ([setAttributes],
    [setNewItemAdded], [scrollTo]); an empty list is a handler that returns
    without calling anything.  Numbers that the code uses as ids and indices
    are integers ([Z]); an id is a JavaScript number, so the sum that makes
    a new id is the sum of doubles, rounded where it is not exact;
    [findIndex] returns [-1] when nothing matches, as in JavaScript.  A run-time array cell is an [option]: [None] is the value
    [undefined], which a well-typed [Item[]] never holds but which
    [arrayMove] can insert. *)

From Stdlib Require Import ZArith Lia.
From stdpp Require Import base option list strings gmap.

(** ** JavaScript numbers *)

Module JsNumber.

(** The double nearest to the integer [n], ties to the even significand
    (IEEE 754 round-to-nearest-even with a significand of 53 bits).  Every
    integer up to [2 ^ 53] in absolute value is a double; beyond, doubles
    are [2 ^ (e - 52)] apart, [e] the binary exponent.  The exponent range
    is not modelled: the sums taken in this file stay finite. *)
Definition roundToDouble (n : Z) : Z :=
  let a := Z.abs n in
  if (a <=? 2 ^ 53)%Z then n
  else
    let ulp := (2 ^ (Z.log2 a - 52))%Z in
    let q := (a / ulp)%Z in
    let r := (a mod ulp)%Z in
    (Z.sgn n *
     (if 2 * r <? ulp then q * ulp
      else if ulp <? 2 * r then (q + 1) * ulp
      else if Z.even q then q * ulp else (q + 1) * ulp))%Z.

(** [a + b] on integer-valued doubles: the exact sum, rounded. *)
Definition add (a b : Z) : Z := roundToDouble (a + b).

(** [Number.isSafeInteger]: at most [2 ^ 53 - 1] in absolute value. *)
Definition isSafeInteger (n : Z) : Prop := (Z.abs n < 2 ^ 53)%Z.

End JsNumber.

(** ** JavaScript arrays *)

Module JsArray.
Section JsArray.
Context {V : Type} (undefined : V).

(** [Array.prototype.findIndex]: index of the first element satisfying the
    predicate, [-1] if there is none. *)
Definition findIndex (P : V → Prop) `{!∀ x, Decision (P x)} (l : list V) : Z :=
  match list_find P l with
  | Some (i, _) => Z.of_nat i
  | None => (-1)%Z
  end.

(** [Array.prototype.find]: the first element satisfying the predicate. *)
Definition find (P : V → Prop) `{!∀ x, Decision (P x)} (l : list V) : option V :=
  snd <$> list_find P l.

(** The start index of [splice] after normalisation: a negative start
    counts from the end and is clamped to [0]; a start beyond the end is
    clamped to the length. *)
Definition actualStart (len : nat) (start : Z) : nat :=
  if (start <? 0)%Z
  then Z.to_nat (Z.max (Z.of_nat len + start) 0)
  else Z.to_nat (Z.min start (Z.of_nat len)).

(** [a.splice(start, deleteCount, ...items)]: the removed elements and the
    array after the call. *)
Definition splice (a : list V) (start deleteCount : Z) (items : list V)
  : list V * list V :=
  let s := actualStart (length a) start in
  let d := Z.to_nat (Z.min (Z.max deleteCount 0) (Z.of_nat (length a - s))) in
  (take d (drop s a), take s a ++ items ++ drop (s + d) a).

(** The array with [x] inserted before index [q]: what
    [a.splice(q, 0, x)] leaves in [a] when [q] is in range. *)
Definition insertAt (q : nat) (x : V) (l : list V) : list V :=
  take q l ++ x :: drop q l.

(** [l[0]]: [undefined] on an empty array. *)
Definition first (l : list V) : V := default undefined (l !! 0).

(** [arrayMove] of [@dnd-kit/sortable]:
<<
    const newArray = array.slice();
    newArray.splice(to < 0 ? newArray.length + to : to, 0,
                    newArray.splice(from, 1)[0]);
    return newArray;
>>
    The arguments of the outer [splice] are evaluated left to right: its
    start index is computed from the length before the inner [splice]
    removes the element. *)
Definition arrayMove (array : list V) (from to : Z) : list V :=
  let newArray := array in
  let start := if (to <? 0)%Z then (Z.of_nat (length newArray) + to)%Z else to in
  let '(removed, newArray) := splice newArray from 1 [] in
  let '(_, newArray) := splice newArray start 0 [first removed] in
  newArray.
End JsArray.
End JsArray.

(** ** The repeater *)

Module Repeater.
Import JsArray.

(** Modelled from the spec: the type [Item] of [./types] (section 3, data
    model): an integer id (an integer-valued [number]), a display label, a
    payload and the collapse flag. *)
Record Item := mkItem {
  id : Z;
  label : string;
  value : Z;
  collapsed : bool;
}.

#[global] Instance Item_eq_dec : EqDecision Item.
Proof. solve_decision. Defined.

(** [UniqueIdentifier] of [@dnd-kit/core] is [string | number]; [===]
    between a number and a string is false. *)
Inductive UniqueIdentifier :=
  | UNumber (n : Z)
  | UString (s : string).

#[global] Instance UniqueIdentifier_eq_dec : EqDecision UniqueIdentifier.
Proof. solve_decision. Defined.

(** A drag-end event [{ active: {id}, over: {id} | null }]: [active] is
    [active.id]; [over] is [None] for [null] and [Some y] for [over.id = y]. *)
Record DragEndEvent := mkDragEnd {
  active : UniqueIdentifier;
  over : option UniqueIdentifier;
}.

(** The configuration object [control]; [preventEmpty] may be left
    undefined. *)
Record Control := mkControl {
  preventEmpty : option bool;
  fixed : bool;
}.

(** What a handler calls. *)
Inductive Call :=
  | SetAttributes (newAttributes : list (option Item))
  | SetNewItemAdded (b : bool)
  | ScrollTo (top : Z).

#[global] Instance Call_eq_dec : EqDecision Call.
Proof. solve_decision. Defined.

(** Modelled from the spec: [getMaxId] of [./utils], the maximum of the
    existing ids, an empty list counting as maximum [0] (section 4.2). *)
Definition getMaxId (items : list Item) : Z :=
  match items with
  | [] => 0%Z
  | x :: rest => foldr (λ it m, Z.max (id it) m) (id x) rest
  end.

(** [item.id === uid] *)
Definition hasId (uid : UniqueIdentifier) (item : Item) : Prop :=
  UNumber (id item) = uid.

#[global] Instance hasId_dec uid item : Decision (hasId uid item).
Proof. unfold hasId. apply _. Defined.

Definition handleDragEnd (attribute : list Item) (event : DragEndEvent) : list Call :=
  match over event with
  | None => []
  | Some over_id =>
    if decide (active event = over_id) then []
    else
      let oldIndex := findIndex (hasId (active event)) attribute in
      let newIndex := findIndex (hasId over_id) attribute in
      let newAttributes := arrayMove None (Some <$> attribute) oldIndex newIndex in
      [SetAttributes newAttributes]
  end.

(** [now] is the value of [Date.now()] at the call. *)
Definition addItem (now : Z) (attribute : list Item) : list Call :=
  let newItem :=
    {| id := JsNumber.add (getMaxId attribute) 1; label := "New Item";
       value := now;
       collapsed := true |} in
  let newAttributes := attribute ++ [newItem] in
  [SetAttributes (Some <$> newAttributes); SetNewItemAdded true].

Definition isDisabledRemove (control : option Control) (attribute : list Item) : bool :=
  match control ≫= preventEmpty with
  | None => true
  | Some b => b
  end && bool_decide (length attribute = 1).

Definition removeItem (control : option Control) (attribute : list Item) (i : Z)
  : list Call :=
  if isDisabledRemove control attribute then []
  else
    let newAttributes := filter (λ item, id item ≠ i) attribute in
    [SetAttributes (Some <$> newAttributes)].

Definition duplicateItem (attribute : list Item) (i : Z) : list Call :=
  match find (λ item, id item = i) attribute with
  | Some itemToDuplicate =>
    let newItem :=
      {| id := JsNumber.add (getMaxId attribute) 1;
         label := label itemToDuplicate;
         value := value itemToDuplicate;
         collapsed := collapsed itemToDuplicate |} in
    let newAttributes := attribute ++ [newItem] in
    [SetAttributes (Some <$> newAttributes)]
  | None => []
  end.

Definition toggleCollapse (attribute : list Item) (i : Z) : list Call :=
  let newAttributes :=
    (λ item,
       if decide (id item = i)
       then {| id := id item; label := label item; value := value item;
               collapsed := negb (collapsed item) |}
       else item) <$> attribute in
  [SetAttributes (Some <$> newAttributes)].

(** *** The scroll-to-new effect and the render cycle *)

(** The DOM node behind [itemListRef]. *)
Record Element := mkElement { scrollHeight : Z }.

(** Body of the [useEffect]; [current] is [itemListRef.current], [None] for
    [null]. *)
Definition scrollEffect (newItemAdded : bool) (current : option Element) : list Call :=
  match newItemAdded, current with
  | true, Some el => [ScrollTo (scrollHeight el); SetNewItemAdded false]
  | _, _ => []
  end.

(** The five handlers of the component. *)
Inductive Op :=
  | Add (now : Z)
  | Remove (i : Z)
  | Duplicate (i : Z)
  | ToggleCollapse (i : Z)
  | DragEnd (event : DragEndEvent).

Definition handler (control : option Control) (attribute : list Item) (op : Op)
  : list Call :=
  match op with
  | Add now => addItem now attribute
  | Remove i => removeItem control attribute i
  | Duplicate i => duplicateItem attribute i
  | ToggleCollapse i => toggleCollapse attribute i
  | DragEnd event => handleDragEnd attribute event
  end.

(** What the mounted component reacts to: one of its handlers fires, or the
    host hands down another list ([attributes[attr_key]] is host-owned). *)
Inductive Event :=
  | Fire (op : Op)
  | HostUpdate (l : list Item).

Definition react (control : option Control) (attribute : list Item) (ev : Event)
  : list Call :=
  match ev with
  | Fire op => handler control attribute op
  | HostUpdate l => [SetAttributes (Some <$> l)]
  end.

(** What can be observed of a run, in order. *)
Inductive Obs :=
  | Committed (rendered : list Item)
  | Scrolled (top : Z).

#[global] Instance Obs_eq_dec : EqDecision Obs.
Proof. solve_decision. Defined.

(** A mounted component: the list the host holds and the identity of that
    array (every [setAttributes] stores a fresh array), the local state
    [newItemAdded], the dependency values [[attribute, newItemAdded]] seen
    by the last run of the effect, and the observations so far. *)
Record Mounted := mkMounted {
  st_attribute : list Item;
  st_array : nat;
  st_newItemAdded : bool;
  st_deps : option (nat * bool);
  st_log : list Obs;
}.

(** One call made by a handler or by the effect.  A list holding
    [undefined] cannot be rendered ([item.id] throws): [None]. *)
Definition perform (s : Mounted) (c : Call) : option Mounted :=
  match c with
  | SetAttributes cells =>
    l ← mapM (λ cell, cell) cells;
    Some (mkMounted l (S (st_array s)) (st_newItemAdded s) (st_deps s) (st_log s))
  | SetNewItemAdded b =>
    Some (mkMounted (st_attribute s) (st_array s) b (st_deps s) (st_log s))
  | ScrollTo top =>
    Some (mkMounted (st_attribute s) (st_array s) (st_newItemAdded s) (st_deps s)
            (st_log s ++ [Scrolled top]))
  end.

Fixpoint performAll (s : Mounted) (calls : list Call) : option Mounted :=
  match calls with
  | [] => Some s
  | c :: calls => s' ← perform s c; performAll s' calls
  end.

(** The calls that set state and so ask for a render; [scrollTo] acts on
    the DOM at once. *)
Definition isSetter (c : Call) : bool :=
  match c with
  | ScrollTo _ => false
  | _ => true
  end.

(** Render and commit, then the effect phase.  The commit attaches
    [itemListRef] to the list container, whose scroll height for the
    rendered list is [height]; the effect runs if one of its dependencies
    differs from what its last run saw; [again] takes care of the calls a
    run of the effect makes. *)
Definition commit (height : list Item → Z)
    (again : Mounted → list Call → option Mounted) (s : Mounted)
  : option Mounted :=
  let log := st_log s ++ [Committed (st_attribute s)] in
  let deps := (st_array s, st_newItemAdded s) in
  if decide (st_deps s = Some deps)
  then Some (mkMounted (st_attribute s) (st_array s) (st_newItemAdded s)
               (st_deps s) log)
  else
    let s := mkMounted (st_attribute s) (st_array s) (st_newItemAdded s)
               (Some deps) log in
    let current := Some (mkElement (height (st_attribute s))) in
    match scrollEffect (st_newItemAdded s) current with
    | [] => Some s
    | calls => again s calls
    end.

(** The calls one after the other, each state setter followed by its own
    render. *)
Fixpoint performEach (commitNow : Mounted → option Mounted) (s : Mounted)
    (calls : list Call) : option Mounted :=
  match calls with
  | [] => Some s
  | c :: calls =>
    s ← perform s c;
    s ← (if isSetter c then commitNow s else Some s);
    performEach commitNow s calls
  end.

(** The render cycle for the calls of one handler or of one run of the
    effect, as the framework runs it.  With [batched] the calls take
    effect together and are followed by one render (updates made in an
    event handler); without, every state setter is rendered on its own, in
    program order.  [None]: out of fuel, or a render that throws. *)
Fixpoint cycle (height : list Item → Z) (batched : bool) (fuel : nat)
    (s : Mounted) (calls : list Call) : option Mounted :=
  match fuel with
  | 0 => None
  | S fuel =>
    if batched
    then s ← performAll s calls; commit height (cycle height batched fuel) s
    else performEach (commit height (cycle height batched fuel)) s calls
  end.

(** The first render. *)
Definition mount (height : list Item → Z) (batched : bool) (fuel : nat)
    (attribute : list Item) : option Mounted :=
  commit height (cycle height batched fuel) (mkMounted attribute 0 false None []).

(** One event: a handler that calls nothing leaves the component as it
    is. *)
Definition dispatch (height : list Item → Z) (control : option Control)
    (batched : bool) (fuel : nat) (s : Mounted) (ev : Event) : option Mounted :=
  match react control (st_attribute s) ev with
  | [] => Some s
  | calls => cycle height batched fuel s calls
  end.

Fixpoint run (height : list Item → Z) (control : option Control)
    (batched : bool) (fuel : nat) (s : Mounted) (evs : list Event)
  : option Mounted :=
  match evs with
  | [] => Some s
  | ev :: evs =>
    s' ← dispatch height control batched fuel s ev;
    run height control batched fuel s' evs
  end.

(** *** Vocabulary of the specification *)

(** [x], at index [i], is the item with id [X]: the first one, should the
    list hold several. *)
Definition firstWithId (X : Z) (attribute : list Item) (i : nat) (x : Item) : Prop :=
  attribute !! i = Some x ∧ id x = X ∧
  ∀ k y, k < i → attribute !! k = Some y → id y ≠ X.

(** [m] is the maximum of the ids of [items], [0] for the empty list. *)
Definition isMaxId (m : Z) (items : list Item) : Prop :=
  match items with
  | [] => m = 0%Z
  | _ => m ∈ id <$> items ∧ ∀ x, x ∈ items → (id x ≤ m)%Z
  end.

(** The maximum of the ids is a safe integer, so that one more is exact. *)
Definition safeMaxId (items : list Item) : Prop :=
  ∀ m, isMaxId m items → JsNumber.isSafeInteger m.

(** The handlers that make a new id. *)
Definition assignsId (op : Op) : bool :=
  match op with
  | Add _ | Duplicate _ => true
  | _ => false
  end.

(** The item with its [collapsed] flag flipped and nothing else changed. *)
Definition flipCollapsed (x : Item) : Item :=
  mkItem (id x) (label x) (value x) (negb (collapsed x)).

(** What [toggleCollapse] does to one item. *)
Definition toggled (i : Z) (item : Item) : Item :=
  if decide (id item = i) then flipCollapsed item else item.

(** The prevent-empty policy is on unless [control.preventEmpty] is
    explicitly [false]. *)
Definition preventEmptyEnabled (control : option Control) : Prop :=
  ∀ c, control = Some c → preventEmpty c ≠ Some false.

(** No two cells of an emitted array carry the same id. *)
Definition distinctIds (cells : list (option Item)) : Prop :=
  NoDup (fmap (M:=option) id <$> cells).

Definition isScrolled (o : Obs) : bool :=
  match o with Scrolled _ => true | Committed _ => false end.

(** How often the list container was scrolled. *)
Definition scrolls (log : list Obs) : nat :=
  length (filter (λ o, isScrolled o) log).

Definition isAdd (ev : Event) : bool :=
  match ev with Fire (Add _) => true | _ => false end.

(** How many of the events are clicks on the add button. *)
Definition adds (evs : list Event) : nat :=
  length (filter (λ ev, isAdd ev) evs).

(** After an event has been handled and the renders it causes have
    settled: the flag is down and the effect has seen the current
    dependencies. *)
Definition settled (s : Mounted) : Prop :=
  st_newItemAdded s = false ∧ st_deps s = Some (st_array s, false).

End Repeater.

(** ** The colour popover *)

Module Popover.

(** The values a colour entry can hold at run time. *)
Inductive JsValue :=
  | JUndefined
  | JNull
  | JBool (b : bool)
  | JNumber (n : Z)
  | JString (s : string).

#[global] Instance JsValue_eq_dec : EqDecision JsValue.
Proof. solve_decision. Defined.

(** [value ?? fallback] *)
Definition nullish (value fallback : JsValue) : JsValue :=
  match value with
  | JUndefined | JNull => fallback
  | _ => value
  end.

(** [{ ...o }] of an object that may be [undefined]. *)
Definition spread {A} (o : option (gmap string A)) : gmap string A :=
  default ∅ o.

(** The argument [onChange] passes to [setAttributes]:
<<
      { [attrKey]: { ...attributes[attrKey],
                     [element.name]: { ...elementColors,
                                       [colorKey]: value ?? '' } } }
>>
*)
Definition onChange (attrKey elementName : string)
    (attributes : gmap string (gmap string (gmap string JsValue)))
    (elementColors : option (gmap string JsValue))
    (colorKey : string) (value : JsValue)
  : gmap string (gmap string (gmap string JsValue)) :=
  {[ attrKey :=
       <[ elementName :=
            <[ colorKey := nullish value (JString EmptyString) ]> (spread elementColors) ]>
         (spread (attributes !! attrKey)) ]}.

(** The host's [setAttributes]: the keys of the argument replace those of
    the stored attributes, the others stay. *)
Definition setAttributes
    (partial attributes : gmap string (gmap string (gmap string JsValue)))
  : gmap string (gmap string (gmap string JsValue)) :=
  partial ∪ attributes.

(** [attributes[attrKey][elementName]], [None] where the path does not
    exist. *)
Definition elementAt
    (attributes : gmap string (gmap string (gmap string JsValue)))
    (attrKey elementName : string) : option (gmap string JsValue) :=
  elements ← attributes !! attrKey;
  (elements : gmap string (gmap string JsValue)) !! elementName.

(** [attributes[attrKey][elementName][colorKey]] *)
Definition colorAt
    (attributes : gmap string (gmap string (gmap string JsValue)))
    (attrKey elementName colorKey : string) : option JsValue :=
  colors ← elementAt attributes attrKey elementName;
  (colors : gmap string JsValue) !! colorKey.

End Popover.

(** * Properties *)

Import JsArray Repeater.

(** ** Arrays *)

Section ArrayFacts.
Context {V : Type} (undefined : V).
Implicit Types (l : list V) (x : V).

Lemma insertAt_lookup q x l : q ≤ length l → insertAt q x l !! q = Some x.
Proof.
  intros Hq. unfold insertAt.
  rewrite lookup_app_r; rewrite length_take; [|lia].
  by replace (q - q `min` length l) with 0 by lia.
Qed.

Lemma insertAt_delete q x l : q ≤ length l → delete q (insertAt q x l) = l.
Proof.
  intros Hq. unfold insertAt.
  rewrite <- (take_drop q l) at 3.
  rewrite <- (delete_middle (take q l) (drop q l) x) at 1.
  f_equal. rewrite length_take. lia.
Qed.

Lemma insertAt_perm q x l : insertAt q x l ≡ₚ x :: l.
Proof.
  unfold insertAt. rewrite <- Permutation_middle. by rewrite take_drop.
Qed.

Lemma insertAt_length q x l : length (insertAt q x l) = S (length l).
Proof.
  unfold insertAt. rewrite length_app. simpl.
  rewrite length_take, length_drop. lia.
Qed.

Lemma insertAt_end x l : insertAt (length l) x l = l ++ [x].
Proof. unfold insertAt. by rewrite firstn_all, drop_all. Qed.

(** [arrayMove] once both [splice] calls have normalised their start
    index: the element at [p] is taken out and put back before [q]. *)
Lemma arrayMove_eq l from to p q x :
  actualStart (length l) from = p →
  l !! p = Some x →
  actualStart (length l - 1)
    (if (to <? 0)%Z then (Z.of_nat (length l) + to)%Z else to) = q →
  arrayMove undefined l from to = insertAt q x (delete p l).
Proof.
  intros Hp Hx Hq. pose proof (lookup_lt_Some _ _ _ Hx) as Hlt.
  unfold arrayMove, splice. rewrite Hp.
  replace (Z.to_nat (Z.min (Z.max 1 0) (Z.of_nat (length l - p)))) with 1 by lia.
  rewrite (drop_S _ _ _ Hx). simpl take at 1. unfold first. simpl.
  replace (p + 1) with (S p) by lia. rewrite <- delete_take_drop.
  rewrite length_delete by eauto. rewrite Hq.
  replace (Z.to_nat _) with 0 by lia.
  by rewrite Nat.add_0_r.
Qed.

Lemma delete_last_cell l x : delete (length l) (l ++ [x]) = l.
Proof. by rewrite (delete_middle l [] x), app_nil_r. Qed.
End ArrayFacts.

Lemma fmap_insertAt {A B} (f : A → B) q x (l : list A) :
  f <$> insertAt q x l = insertAt q (f x) (f <$> l).
Proof. unfold insertAt. by rewrite fmap_app, fmap_cons, fmap_take, fmap_drop. Qed.

Section FindFacts.
Context {V : Type} (P : V → Prop) `{!∀ x, Decision (P x)}.

Lemma list_find_first (l : list V) i x :
  l !! i = Some x → P x →
  (∀ k y, k < i → l !! k = Some y → ¬ P y) →
  list_find P l = Some (i, x).
Proof.
  intros Hx HP Hmin. apply list_find_Some.
  split; [done|]. split; [done|]. intros k y Hy Hk. by apply (Hmin k y).
Qed.

Lemma list_find_absent (l : list V) :
  (∀ x, x ∈ l → ¬ P x) → list_find P l = None.
Proof. intros Hno. apply list_find_None, Forall_forall, Hno. Qed.

Lemma findIndex_first (l : list V) i x :
  l !! i = Some x → P x →
  (∀ k y, k < i → l !! k = Some y → ¬ P y) →
  findIndex P l = Z.of_nat i.
Proof.
  intros Hx HP Hmin. unfold findIndex.
  by rewrite (list_find_first l i x).
Qed.

Lemma findIndex_absent (l : list V) :
  (∀ x, x ∈ l → ¬ P x) → findIndex P l = (-1)%Z.
Proof. intros Hno. unfold findIndex. by rewrite list_find_absent. Qed.

Lemma find_first (l : list V) i x :
  l !! i = Some x → P x →
  (∀ k y, k < i → l !! k = Some y → ¬ P y) →
  find P l = Some x.
Proof.
  intros Hx HP Hmin. unfold find.
  by rewrite (list_find_first l i x).
Qed.

Lemma find_absent (l : list V) :
  (∀ x, x ∈ l → ¬ P x) → find P l = None.
Proof. intros Hno. unfold find. by rewrite list_find_absent. Qed.

Lemma first_exists (l : list V) x :
  x ∈ l → P x →
  ∃ i y, l !! i = Some y ∧ P y ∧ ∀ k z, k < i → l !! k = Some z → ¬ P z.
Proof.
  intros Hin HP.
  destruct (list_find_elem_of P l x Hin HP) as [[i y] Hf].
  apply list_find_Some in Hf. destruct Hf as (Hy & HPy & Hmin).
  exists i, y. split; [done|]. split; [done|].
  intros k z Hk Hz. by apply (Hmin k z).
Qed.
End FindFacts.

Lemma firstWithId_exists X attribute :
  X ∈ id <$> attribute → ∃ i x, firstWithId X attribute i x.
Proof.
  intros Hin. apply list_elem_of_fmap in Hin as (x & -> & Hx).
  destruct (first_exists (λ y, id y = id x) attribute x Hx eq_refl)
    as (i & y & Hy & Hid & Hmin).
  by exists i, y.
Qed.

Lemma firstWithId_hasId X attribute i x :
  firstWithId X attribute i x →
  findIndex (hasId (UNumber X)) attribute = Z.of_nat i.
Proof.
  intros (Hi & Hx & Hmin). apply (findIndex_first _ _ i x); [done|..].
  - unfold hasId. by rewrite Hx.
  - intros k y Hk Hy [= Hid]. by apply (Hmin k y).
Qed.

Lemma absent_hasId a attribute :
  (∀ X, a = UNumber X → X ∉ id <$> attribute) →
  findIndex (hasId a) attribute = (-1)%Z.
Proof.
  intros Habs. apply findIndex_absent. intros x Hx Hid.
  apply (Habs (id x)); [done|]. by apply list_elem_of_fmap_2.
Qed.

(** ** Drag end *)

Lemma handleDragEnd_calls attribute a b :
  a ≠ b →
  handleDragEnd attribute (mkDragEnd a (Some b)) =
    [SetAttributes
       (arrayMove None (Some <$> attribute)
          (findIndex (hasId a) attribute) (findIndex (hasId b) attribute))].
Proof. intros Hab. unfold handleDragEnd. simpl. by rewrite decide_False. Qed.

(** Both ids in the list: the dragged item is taken out and put back at
    the index of the item it was dropped on. *)
Lemma handleDragEnd_found attribute X Y i j x y :
  X ≠ Y → firstWithId X attribute i x → firstWithId Y attribute j y →
  handleDragEnd attribute (mkDragEnd (UNumber X) (Some (UNumber Y))) =
    [SetAttributes (Some <$> insertAt j x (delete i attribute))].
Proof.
  intros HXY HX HY. rewrite handleDragEnd_calls by congruence.
  rewrite (firstWithId_hasId _ _ _ _ HX), (firstWithId_hasId _ _ _ _ HY).
  destruct HX as (Hi & _ & _), HY as (Hj & _ & _).
  pose proof (lookup_lt_Some _ _ _ Hi). pose proof (lookup_lt_Some _ _ _ Hj).
  rewrite (arrayMove_eq None _ _ _ i j (Some x)).
  - by rewrite fmap_insertAt, list_fmap_delete.
  - unfold actualStart. rewrite length_fmap.
    destruct (Z.ltb_spec (Z.of_nat i) 0); lia.
  - by rewrite list_lookup_fmap, Hi.
  - rewrite length_fmap. destruct (Z.ltb_spec (Z.of_nat j) 0); [lia|].
    unfold actualStart. destruct (Z.ltb_spec (Z.of_nat j) 0); lia.
Qed.

(** The dragged id is not in the list, the other one is: [findIndex]
    answers [-1], and [splice(-1, 1)] takes the last item, which lands at
    the index of the item dropped on. *)
Lemma handleDragEnd_active_unknown front z a Y j y :
  a ≠ UNumber Y →
  (∀ X, a = UNumber X → X ∉ id <$> front ++ [z]) →
  firstWithId Y (front ++ [z]) j y →
  handleDragEnd (front ++ [z]) (mkDragEnd a (Some (UNumber Y))) =
    [SetAttributes (Some <$> insertAt j z front)].
Proof.
  intros Hne Habs HY. rewrite handleDragEnd_calls by done.
  rewrite (absent_hasId _ _ Habs), (firstWithId_hasId _ _ _ _ HY).
  destruct HY as (Hj & _ & _). pose proof (lookup_lt_Some _ _ _ Hj) as Hlt.
  rewrite length_app in Hlt. simpl in Hlt.
  rewrite (arrayMove_eq None _ _ _ (length front) j (Some z)).
  - rewrite fmap_insertAt, fmap_app. simpl.
    by rewrite <- (length_fmap Some front), delete_last_cell.
  - unfold actualStart. rewrite length_fmap, length_app. simpl. lia.
  - rewrite fmap_app, lookup_app_r; rewrite length_fmap; [|lia].
    by rewrite Nat.sub_diag.
  - rewrite length_fmap, length_app. simpl.
    destruct (Z.ltb_spec (Z.of_nat j) 0); [lia|].
    unfold actualStart. destruct (Z.ltb_spec (Z.of_nat j) 0); lia.
Qed.

(** The id dropped on is not in the list, the dragged one is: the dragged
    item moves to the end. *)
Lemma handleDragEnd_over_unknown attribute X b i x :
  UNumber X ≠ b →
  firstWithId X attribute i x →
  (∀ Y, b = UNumber Y → Y ∉ id <$> attribute) →
  handleDragEnd attribute (mkDragEnd (UNumber X) (Some b)) =
    [SetAttributes (Some <$> delete i attribute ++ [x])].
Proof.
  intros Hne HX Habs. rewrite handleDragEnd_calls by done.
  rewrite (absent_hasId _ _ Habs), (firstWithId_hasId _ _ _ _ HX).
  destruct HX as (Hi & _ & _). pose proof (lookup_lt_Some _ _ _ Hi) as Hlt.
  rewrite (arrayMove_eq None _ _ _ i (length attribute - 1) (Some x)).
  - rewrite <- list_fmap_delete, <- fmap_insertAt. f_equal.
    rewrite <- (insertAt_end x (delete i attribute)).
    by rewrite length_delete by eauto.
  - unfold actualStart. rewrite length_fmap.
    destruct (Z.ltb_spec (Z.of_nat i) 0); lia.
  - by rewrite list_lookup_fmap, Hi.
  - rewrite length_fmap. simpl. unfold actualStart.
    destruct (Z.ltb_spec (Z.of_nat (length attribute) + -1) 0); lia.
Qed.

(** Neither id is in a non-empty list: the last item is taken out and put
    back; a list with the same content is emitted all the same. *)
Lemma handleDragEnd_both_unknown front z a b :
  a ≠ b →
  (∀ X, a = UNumber X → X ∉ id <$> front ++ [z]) →
  (∀ Y, b = UNumber Y → Y ∉ id <$> front ++ [z]) →
  handleDragEnd (front ++ [z]) (mkDragEnd a (Some b)) =
    [SetAttributes (Some <$> front ++ [z])].
Proof.
  intros Hne Ha Hb. rewrite handleDragEnd_calls by done.
  rewrite (absent_hasId _ _ Ha), (absent_hasId _ _ Hb).
  rewrite (arrayMove_eq None _ _ _ (length front) (length front) (Some z)).
  - rewrite fmap_app. simpl.
    rewrite <- (length_fmap Some front), delete_last_cell.
    by rewrite insertAt_end.
  - unfold actualStart. rewrite length_fmap, length_app. simpl. lia.
  - rewrite fmap_app, lookup_app_r; rewrite length_fmap; [|lia].
    by rewrite Nat.sub_diag.
  - rewrite length_fmap, length_app. simpl. unfold actualStart.
    destruct (Z.ltb_spec (Z.of_nat (length front + 1) + -1) 0); lia.
Qed.

(** On the empty list nothing is taken out and [undefined] is inserted. *)
Lemma handleDragEnd_empty a b :
  a ≠ b → handleDragEnd [] (mkDragEnd a (Some b)) = [SetAttributes [None]].
Proof. intros Hne. by rewrite handleDragEnd_calls. Qed.

(** C1.  The claim is that a drag-end event naming an id that no item has
    leaves the list unchanged.  The handler does not look at what
    [findIndex] returned: with the dragged id unknown it emits the list with
    its last item moved to the index of the item dropped on, and with the id
    dropped on unknown it emits the list with the dragged item moved to the
    end. *)
Theorem handleDragEnd_unknown_id_reorders :
  let a := mkItem 1 "A" 0 true in
  let b := mkItem 2 "B" 0 true in
  let c := mkItem 3 "C" 0 true in
  handleDragEnd [a; b; c] (mkDragEnd (UNumber 99) (Some (UNumber 1))) =
    [SetAttributes [Some c; Some a; Some b]] ∧
  handleDragEnd [a; b; c] (mkDragEnd (UNumber 1) (Some (UNumber 99))) =
    [SetAttributes [Some b; Some c; Some a]].
Proof. split; reflexivity. Qed.

(** C2.  A drag-end event without a target, or dropped on the dragged item
    itself, emits nothing.  When the dragged id [X] and the id dropped on
    [Y] differ and both are in the list, the emitted list is a permutation
    of the list, of the same length, that holds the item with id [X] at the
    index the item with id [Y] had; taking the moved item out of both lists
    leaves the same list, so all other items keep their relative order. *)
Theorem handleDragEnd_moves (attribute : list Item) (a : UniqueIdentifier) (X Y : Z) :
  handleDragEnd attribute (mkDragEnd a None) = [] ∧
  handleDragEnd attribute (mkDragEnd a (Some a)) = [] ∧
  (X ≠ Y → X ∈ id <$> attribute → Y ∈ id <$> attribute →
   ∃ i j x y r,
     firstWithId X attribute i x ∧ firstWithId Y attribute j y ∧
     handleDragEnd attribute (mkDragEnd (UNumber X) (Some (UNumber Y))) =
       [SetAttributes (Some <$> r)] ∧
     r ≡ₚ attribute ∧ length r = length attribute ∧
     r !! j = Some x ∧ delete j r = delete i attribute).
Proof.
  split; [done|]. split.
  { unfold handleDragEnd. simpl. by rewrite decide_True. }
  intros HXY HX HY.
  destruct (firstWithId_exists _ _ HX) as (i & x & Hfx).
  destruct (firstWithId_exists _ _ HY) as (j & y & Hfy).
  exists i, j, x, y, (insertAt j x (delete i attribute)).
  pose proof Hfx as (Hi & _ & _). pose proof Hfy as (Hj & _ & _).
  pose proof (lookup_lt_Some _ _ _ Hi). pose proof (lookup_lt_Some _ _ _ Hj).
  assert (length (delete i attribute) = length attribute - 1) as Hlen
    by (apply length_delete; eauto).
  split; [done|]. split; [done|].
  split; [by apply (handleDragEnd_found _ X Y i j x y)|].
  split; [by rewrite insertAt_perm, <- delete_Permutation|].
  split; [rewrite insertAt_length; lia|].
  split; [apply insertAt_lookup; lia | apply insertAt_delete; lia].
Qed.

Lemma handleDragEnd_moves_witness :
  let l := [mkItem 1 "A" 0 true; mkItem 2 "B" 0 false; mkItem 3 "C" 0 true;
            mkItem 4 "D" 0 true] in
  ∃ i j x y r,
    firstWithId 1 l i x ∧ firstWithId 3 l j y ∧
    handleDragEnd l (mkDragEnd (UNumber 1) (Some (UNumber 3))) =
      [SetAttributes (Some <$> r)] ∧
    r ≡ₚ l ∧ length r = length l ∧ r !! j = Some x ∧ delete j r = delete i l.
Proof.
  intros l.
  apply (proj2 (proj2 (handleDragEnd_moves l (UNumber 1) 1 3))).
  - lia.
  - apply (bool_decide_unpack _). vm_compute. exact I.
  - apply (bool_decide_unpack _). vm_compute. exact I.
Defined.

(** ** Fresh ids *)

Lemma foldr_max_base (base : Z) (rest : list Item) :
  (base ≤ foldr (λ it m, Z.max (id it) m) base rest)%Z.
Proof. induction rest as [|y rest IH]; simpl; lia. Qed.

Lemma foldr_max_upper (base : Z) (rest : list Item) y :
  y ∈ rest → (id y ≤ foldr (λ it m, Z.max (id it) m) base rest)%Z.
Proof.
  induction rest as [|z rest IH]; intros Hy.
  - by apply elem_of_nil in Hy.
  - apply elem_of_cons in Hy as [->|Hy]; simpl; [lia|].
    specialize (IH Hy). lia.
Qed.

Lemma foldr_max_attained (base : Z) (rest : list Item) :
  foldr (λ it m, Z.max (id it) m) base rest = base ∨
  foldr (λ it m, Z.max (id it) m) base rest ∈ id <$> rest.
Proof.
  induction rest as [|z rest IH]; simpl; [by left|].
  destruct (Z.max_spec (id z) (foldr (λ it m, Z.max (id it) m) base rest))
    as [[_ ->]|[_ ->]].
  - destruct IH as [IH|IH]; [by left|]. right. by apply list_elem_of_further.
  - right. apply list_elem_of_here.
Qed.

Lemma getMaxId_upper items x : x ∈ items → (id x ≤ getMaxId items)%Z.
Proof.
  destruct items as [|y rest]; intros Hx.
  - by apply elem_of_nil in Hx.
  - apply elem_of_cons in Hx as [->|Hx]; simpl.
    + apply foldr_max_base.
    + by apply foldr_max_upper.
Qed.

Lemma getMaxId_isMaxId items : isMaxId (getMaxId items) items.
Proof.
  destruct items as [|y rest]; [done|]. split.
  - simpl. destruct (foldr_max_attained (id y) rest) as [->|Hin].
    + apply list_elem_of_here.
    + by apply list_elem_of_further.
  - intros x Hx. by apply getMaxId_upper.
Qed.

Lemma isMaxId_unique m m' items : isMaxId m items → isMaxId m' items → m = m'.
Proof.
  destruct items as [|y rest]; simpl; [congruence|].
  intros [Hm Hub] [Hm' Hub'].
  apply (list_elem_of_fmap id (y :: rest)) in Hm as (x & -> & Hx).
  apply (list_elem_of_fmap id (y :: rest)) in Hm' as (x' & -> & Hx').
  specialize (Hub _ Hx'). specialize (Hub' _ Hx). lia.
Qed.

Lemma isMaxId_snoc m items newItem :
  isMaxId m items → id newItem = (m + 1)%Z →
  isMaxId (m + 1) (items ++ [newItem]).
Proof.
  intros Hm Hid.
  assert (m + 1 ∈ id <$> items ++ [newItem])%Z as Hin.
  { rewrite fmap_app, <- Hid. apply elem_of_app. right. apply list_elem_of_here. }
  assert (∀ x, x ∈ items ++ [newItem] → (id x ≤ m + 1)%Z) as Hub.
  { intros x [Hx|Hx]%elem_of_app.
    - destruct items as [|y rest]; [by apply elem_of_nil in Hx|].
      destruct Hm as [_ Hub]. specialize (Hub _ Hx). lia.
    - apply list_elem_of_singleton in Hx as ->. lia. }
  destruct items; simpl; by split.
Qed.

(** ** One more than a safe integer *)

Lemma roundToDouble_exact n :
  (Z.abs n ≤ 2 ^ 53)%Z → JsNumber.roundToDouble n = n.
Proof.
  intros Hn. unfold JsNumber.roundToDouble.
  by rewrite (proj2 (Z.leb_le _ _) Hn).
Qed.

Lemma add_one_safe m :
  JsNumber.isSafeInteger m → JsNumber.add m 1 = (m + 1)%Z.
Proof.
  unfold JsNumber.isSafeInteger, JsNumber.add. intros Hm.
  apply roundToDouble_exact. lia.
Qed.

Lemma safeMaxId_getMaxId items :
  safeMaxId items ↔ JsNumber.isSafeInteger (getMaxId items).
Proof.
  split.
  - intros Hsafe. apply Hsafe, getMaxId_isMaxId.
  - intros Hsafe m Hm.
    by rewrite (isMaxId_unique m (getMaxId items) items Hm (getMaxId_isMaxId items)).
Qed.

Lemma fresh_id_exact items :
  safeMaxId items → JsNumber.add (getMaxId items) 1 = (getMaxId items + 1)%Z.
Proof. intros Hsafe. by apply add_one_safe, safeMaxId_getMaxId. Qed.

(** ** Add *)

(** C3, as the code has it.  [addItem] emits the list with one item
    appended, and raises the flag [newItemAdded]; the label of the new item
    is the default label and it is collapsed.  Its id is the sum, in
    doubles, of the maximum [m] of the existing ids and one: when [m] is a
    safe integer that is [m + 1], which is then the maximum of the emitted
    list.  On the empty list the new item has id [1]. *)
Theorem addItem_appends (now : Z) (attribute : list Item) :
  (∃ newItem,
     addItem now attribute =
       [SetAttributes (Some <$> attribute ++ [newItem]); SetNewItemAdded true] ∧
     label newItem = "New Item" ∧ value newItem = now ∧
     collapsed newItem = true ∧
     (∀ m, isMaxId m attribute → id newItem = JsNumber.add m 1) ∧
     (∀ m, isMaxId m attribute → JsNumber.isSafeInteger m →
        id newItem = (m + 1)%Z ∧ isMaxId (m + 1) (attribute ++ [newItem]))) ∧
  addItem now [] =
    [SetAttributes [Some (mkItem 1 "New Item" now true)]; SetNewItemAdded true].
Proof.
  split; [|done].
  exists (mkItem (JsNumber.add (getMaxId attribute) 1) "New Item" now true).
  split; [done|]. repeat (split; [done|]).
  assert (∀ m, isMaxId m attribute → m = getMaxId attribute) as Hmax.
  { intros m Hm. apply (isMaxId_unique _ _ attribute Hm), getMaxId_isMaxId. }
  split.
  - intros m Hm. by rewrite (Hmax m Hm).
  - intros m Hm Hsafe. pose proof (add_one_safe m Hsafe) as Hid.
    rewrite (Hmax m Hm) in Hid |- *. split; [done|].
    apply isMaxId_snoc; [apply getMaxId_isMaxId | done].
Qed.

Lemma addItem_appends_witness :
  let l := [mkItem 3 "A" 0 true; mkItem 8 "B" 0 false] in
  ∃ newItem,
    addItem 5 l = [SetAttributes (Some <$> l ++ [newItem]); SetNewItemAdded true] ∧
    id newItem = 9%Z ∧ isMaxId 9 (l ++ [newItem]).
Proof.
  intros l.
  destruct (proj1 (addItem_appends 5 l)) as (newItem & Hadd & _ & _ & _ & _ & Hid).
  exists newItem. split; [done|]. apply (Hid 8%Z).
  - split; [by apply (bool_decide_unpack _)|].
    intros x Hx. repeat (apply elem_of_cons in Hx as [->|Hx]; [simpl; lia|]).
    by apply elem_of_nil in Hx.
  - reflexivity.
Defined.

(** C3, as stated, makes the new id one more than the maximum on every
    list.  One more than [2 ^ 53] is no double: the sum is [2 ^ 53] again,
    the id of the item already there. *)
Lemma addItem_unsafe_id_counterexample :
  let old := mkItem 9007199254740992 "A" 0 true in
  isMaxId 9007199254740992 [old] ∧
  addItem 5 [old] =
    [SetAttributes [Some old; Some (mkItem 9007199254740992 "New Item" 5 true)];
     SetNewItemAdded true] ∧
  (9007199254740992 ≠ 9007199254740992 + 1)%Z.
Proof.
  intros old. split.
  - split; [apply list_elem_of_here|].
    intros x Hx. apply list_elem_of_singleton in Hx as ->. simpl. lia.
  - split; [reflexivity | lia].
Qed.

(** ** Duplicate *)

(** C5, as the code has it.  Without an item of the given id
    [duplicateItem] emits nothing.  With one, it emits the list with one
    item appended; the new item has the label, value and collapse flag of
    the item with that id, and its id is the sum, in doubles, of the
    maximum [m] of the existing ids and one, which is [m + 1] when [m] is a
    safe integer. *)
Theorem duplicateItem_appends (attribute : list Item) (i : Z) :
  (i ∉ id <$> attribute → duplicateItem attribute i = []) ∧
  (i ∈ id <$> attribute →
   ∃ k src newItem m,
     firstWithId i attribute k src ∧
     duplicateItem attribute i = [SetAttributes (Some <$> attribute ++ [newItem])] ∧
     length (attribute ++ [newItem]) = length attribute + 1 ∧
     label newItem = label src ∧ value newItem = value src ∧
     collapsed newItem = collapsed src ∧
     isMaxId m attribute ∧ id newItem = JsNumber.add m 1 ∧
     (JsNumber.isSafeInteger m → id newItem = (m + 1)%Z)).
Proof.
  split.
  - intros Habs. unfold duplicateItem. rewrite find_absent; [done|].
    intros x Hx Hid. apply Habs. rewrite <- Hid. by apply list_elem_of_fmap_2.
  - intros Hin. destruct (firstWithId_exists _ _ Hin) as (k & src & Hsrc).
    exists k, src,
      (mkItem (JsNumber.add (getMaxId attribute) 1) (label src) (value src)
         (collapsed src)),
      (getMaxId attribute).
    split; [done|]. destruct Hsrc as (Hk & Hid & Hmin).
    split.
    { unfold duplicateItem. by rewrite (find_first _ _ k src). }
    split; [rewrite length_app; simpl; lia|].
    repeat (split; [done|]). split; [apply getMaxId_isMaxId|].
    split; [done|]. intros Hsafe. simpl. by apply add_one_safe.
Qed.

Lemma duplicateItem_appends_witness :
  let l := [mkItem 2 "A" 10 false; mkItem 7 "B" 20 true; mkItem 4 "C" 30 true] in
  duplicateItem l 9 = [] ∧
  ∃ k src newItem m,
    firstWithId 7 l k src ∧
    duplicateItem l 7 = [SetAttributes (Some <$> l ++ [newItem])] ∧
    length (l ++ [newItem]) = length l + 1 ∧
    label newItem = label src ∧ value newItem = value src ∧
    collapsed newItem = collapsed src ∧
    isMaxId m l ∧ id newItem = JsNumber.add m 1 ∧
    (JsNumber.isSafeInteger m → id newItem = (m + 1)%Z).
Proof.
  intros l. split.
  - apply (proj1 (duplicateItem_appends l 9)).
    apply (bool_decide_unpack _). vm_compute. exact I.
  - apply (proj2 (duplicateItem_appends l 7)).
    apply (bool_decide_unpack _). vm_compute. exact I.
Defined.

(** C5, as stated, gives the copy an id one more than the maximum on every
    list.  With the maximum at [2 ^ 53] the copy carries the id of its
    source. *)
Lemma duplicateItem_unsafe_id_counterexample :
  let old := mkItem 9007199254740992 "A" 0 true in
  isMaxId 9007199254740992 [old] ∧
  duplicateItem [old] 9007199254740992 =
    [SetAttributes [Some old; Some (mkItem 9007199254740992 "A" 0 true)]] ∧
  (9007199254740992 ≠ 9007199254740992 + 1)%Z.
Proof.
  intros old. split.
  - split; [apply list_elem_of_here|].
    intros x Hx. apply list_elem_of_singleton in Hx as ->. simpl. lia.
  - split; [reflexivity | lia].
Qed.

(** ** Remove *)

Lemma isDisabledRemove_true control attribute :
  isDisabledRemove control attribute = true ↔
  preventEmptyEnabled control ∧ length attribute = 1.
Proof.
  unfold isDisabledRemove, preventEmptyEnabled.
  rewrite andb_true_iff, bool_decide_eq_true.
  destruct control as [[[[]|] fx]|]; simpl; split; intros [H1 H2];
    split; try done.
  - by intros c [= <-].
  - by destruct (H1 _ eq_refl).
  - by intros c [= <-].
Qed.

Lemma filter_other_id_absent (attribute : list Item) (i : Z) :
  i ∉ id <$> attribute → filter (λ x, id x ≠ i) attribute = attribute.
Proof.
  induction attribute as [|x l IH]; [done|]. simpl. intros Habs.
  apply not_elem_of_cons in Habs as [Hne Habs].
  rewrite filter_cons_True by congruence. by rewrite IH.
Qed.

Lemma filter_other_id_length (attribute : list Item) (i : Z) :
  NoDup (id <$> attribute) → i ∈ id <$> attribute →
  S (length (filter (λ x, id x ≠ i) attribute)) = length attribute.
Proof.
  induction attribute as [|x l IH]; simpl.
  - intros _ Hin. by apply elem_of_nil in Hin.
  - intros [Hx Hnd]%NoDup_cons Hin. destruct (decide (id x = i)) as [Heq|Hne].
    + rewrite filter_cons_False by (intros Hc; by apply Hc).
      subst i. by rewrite filter_other_id_absent.
    + rewrite filter_cons_True by done. simpl. f_equal. apply IH; [done|].
      apply elem_of_cons in Hin as [Hin|Hin]; [congruence | done].
Qed.

Lemma removeItem_enabled control attribute i :
  isDisabledRemove control attribute = false →
  removeItem control attribute i =
    [SetAttributes (Some <$> filter (λ x, id x ≠ i) attribute)].
Proof. intros Hen. unfold removeItem. by rewrite Hen. Qed.

(** C4, as the code has it.  With the prevent-empty policy on and exactly
    one item in the list [removeItem] emits nothing, whatever the id.
    Otherwise it emits the list without the items of the given id, the
    others in their original order; the emitted list is one shorter when
    the ids of the list are pairwise distinct and the id is in the list,
    and it is the list itself when the id is not in the list. *)
Theorem removeItem_excludes (control : option Control) (attribute : list Item) (i : Z) :
  (preventEmptyEnabled control → length attribute = 1 →
   removeItem control attribute i = []) ∧
  (¬ (preventEmptyEnabled control ∧ length attribute = 1) →
   ∃ r,
     removeItem control attribute i = [SetAttributes (Some <$> r)] ∧
     r = filter (λ x, id x ≠ i) attribute ∧
     r `sublist_of` attribute ∧
     (∀ x, x ∈ r ↔ x ∈ attribute ∧ id x ≠ i) ∧
     (NoDup (id <$> attribute) → i ∈ id <$> attribute →
      S (length r) = length attribute) ∧
     (i ∉ id <$> attribute → r = attribute)).
Proof.
  split.
  - intros Hon Hlen. unfold removeItem.
    by rewrite (proj2 (isDisabledRemove_true control attribute)).
  - intros Hoff. exists (filter (λ x, id x ≠ i) attribute).
    split.
    { apply removeItem_enabled. apply not_true_is_false.
      by rewrite isDisabledRemove_true. }
    split; [done|]. split; [apply sublist_filter; apply _|].
    split; [intros x; rewrite list_elem_of_filter; tauto|].
    split; [apply filter_other_id_length | apply filter_other_id_absent].
Qed.

Lemma removeItem_excludes_witness :
  let l := [mkItem 1 "A" 0 true; mkItem 2 "B" 0 true; mkItem 3 "C" 0 false] in
  removeItem None [mkItem 1 "A" 0 true] 1 = [] ∧
  ∃ r,
    removeItem None l 2 = [SetAttributes (Some <$> r)] ∧
    r = filter (λ x, id x ≠ 2%Z) l ∧
    r `sublist_of` l ∧
    (∀ x, x ∈ r ↔ x ∈ l ∧ id x ≠ 2%Z) ∧
    (NoDup (id <$> l) → 2%Z ∈ id <$> l → S (length r) = length l) ∧
    (2%Z ∉ id <$> l → r = l).
Proof.
  intros l. split.
  - apply (proj1 (removeItem_excludes None [mkItem 1 "A" 0 true] 1)).
    + intros c Hc. discriminate Hc.
    + reflexivity.
  - apply (proj2 (removeItem_excludes None l 2)).
    intros [_ Hlen]. simpl in Hlen. lia.
Defined.

(** C4, as stated, asks for a list one shorter whenever the id is in the
    list.  Two items sharing the id are both removed. *)
Lemma removeItem_shared_id_counterexample :
  let a := mkItem 1 "A" 0 true in
  let b := mkItem 1 "B" 0 true in
  let c := mkItem 2 "C" 0 true in
  1%Z ∈ id <$> [a; b; c] ∧
  isDisabledRemove None [a; b; c] = false ∧
  removeItem None [a; b; c] 1 = [SetAttributes [Some c]] ∧
  length [c] ≠ length [a; b; c] - 1.
Proof.
  intros a b c. split; [apply list_elem_of_here|].
  split; [reflexivity|]. split; [reflexivity|]. simpl. lia.
Qed.

(** C9.  When the prevent-empty guard does not disable it, [removeItem]
    emits a list in which no item has the given id, however many items of
    the list had it; the items of other ids all stay. *)
Theorem removeItem_removes_every_match (control : option Control)
    (attribute : list Item) (i : Z) :
  isDisabledRemove control attribute = false →
  ∃ r,
    removeItem control attribute i = [SetAttributes (Some <$> r)] ∧
    (i ∉ id <$> r) ∧
    (∀ x, x ∈ attribute → id x ≠ i → x ∈ r) ∧
    r `sublist_of` attribute.
Proof.
  intros Hen. exists (filter (λ x, id x ≠ i) attribute).
  split; [by apply removeItem_enabled|]. split.
  - intros (x & Hid & Hx)%list_elem_of_fmap.
    apply list_elem_of_filter in Hx as [Hne _]. by apply Hne.
  - split; [|apply sublist_filter; apply _].
    intros x Hx Hne. by apply list_elem_of_filter.
Qed.

Lemma removeItem_removes_every_match_witness :
  let l := [mkItem 1 "A" 0 true; mkItem 5 "B" 0 true; mkItem 1 "C" 0 false] in
  ∃ r,
    removeItem (Some (mkControl (Some false) false)) l 1 =
      [SetAttributes (Some <$> r)] ∧
    (1%Z ∉ id <$> r) ∧
    (∀ x, x ∈ l → id x ≠ 1%Z → x ∈ r) ∧
    r `sublist_of` l.
Proof.
  intros l.
  apply (removeItem_removes_every_match (Some (mkControl (Some false) false)) l 1).
  reflexivity.
Defined.

(** ** Toggle collapse *)

Lemma toggleCollapse_calls attribute i :
  toggleCollapse attribute i = [SetAttributes (Some <$> (toggled i <$> attribute))].
Proof. done. Qed.

Lemma flipCollapsed_fields x :
  id (flipCollapsed x) = id x ∧ label (flipCollapsed x) = label x ∧
  value (flipCollapsed x) = value x ∧
  collapsed (flipCollapsed x) = negb (collapsed x).
Proof. done. Qed.

Lemma toggled_id i x : id (toggled i x) = id x.
Proof. unfold toggled. by case_decide. Qed.

Lemma toggled_twice i x : toggled i (toggled i x) = x.
Proof.
  unfold toggled. destruct (decide (id x = i)) as [Heq|Hne].
  - rewrite decide_True by done. destruct x as [n s v c].
    unfold flipCollapsed. simpl. by rewrite negb_involutive.
  - by rewrite decide_False.
Qed.

Lemma toggled_ids i (attribute : list Item) :
  id <$> (toggled i <$> attribute) = id <$> attribute.
Proof.
  rewrite <- list_fmap_compose. apply list_fmap_ext.
  intros k x _. apply toggled_id.
Qed.

Lemma toggled_absent i (attribute : list Item) :
  i ∉ id <$> attribute → toggled i <$> attribute = attribute.
Proof.
  induction attribute as [|x l IH]; [done|]. rewrite !fmap_cons.
  intros [Hne Habs]%not_elem_of_cons. rewrite IH by done.
  unfold toggled. by rewrite decide_False.
Qed.

Lemma toggled_present i (attribute : list Item) k x :
  NoDup (id <$> attribute) → attribute !! k = Some x → id x = i →
  toggled i <$> attribute = <[k := flipCollapsed x]> attribute.
Proof.
  intros Hnd Hk Hid. apply list_eq. intros j.
  rewrite list_lookup_fmap. destruct (decide (k = j)) as [<-|Hkj].
  - rewrite list_lookup_insert_eq by eauto using lookup_lt_Some.
    rewrite Hk. simpl. unfold toggled. by rewrite decide_True.
  - rewrite list_lookup_insert_ne by done.
    destruct (attribute !! j) as [y|] eqn:Hj; [|done]. simpl.
    unfold toggled. rewrite decide_False; [done|]. intros Hy. apply Hkj.
    apply (NoDup_lookup (id <$> attribute) k j i); [done|..];
      rewrite list_lookup_fmap; [by rewrite Hk; simpl; rewrite Hid
                                |by rewrite Hj; simpl; rewrite Hy].
Qed.

(** C6.  On a list with pairwise distinct ids, [toggleCollapse] emits the
    list in which the one item with the given id has its [collapsed] flag
    flipped, every other cell and every other field as before; toggling the
    emitted list again gives back the original; when the id is not in the
    list the emitted list is the list. *)
Theorem toggleCollapse_flips (attribute : list Item) (i : Z) :
  NoDup (id <$> attribute) →
  ∃ r,
    toggleCollapse attribute i = [SetAttributes (Some <$> r)] ∧
    toggleCollapse r i = [SetAttributes (Some <$> attribute)] ∧
    length r = length attribute ∧
    (∀ k x, attribute !! k = Some x → id x = i →
       r = <[k := flipCollapsed x]> attribute ∧
       r !! k = Some (mkItem (id x) (label x) (value x) (negb (collapsed x))) ∧
       ∀ j, j ≠ k → r !! j = attribute !! j) ∧
    (i ∉ id <$> attribute → r = attribute).
Proof.
  intros Hnd. exists (toggled i <$> attribute).
  split; [done|]. split.
  { rewrite toggleCollapse_calls. do 2 f_equal.
    induction attribute as [|x l IH]; [done|]. rewrite !fmap_cons.
    rewrite toggled_twice. f_equal. apply IH.
    by apply NoDup_cons in Hnd as [_ Hnd]. }
  split; [by rewrite length_fmap|]. split; [|apply toggled_absent].
  intros k x Hk Hid. rewrite (toggled_present i attribute k x) by done.
  split; [done|]. split.
  - apply list_lookup_insert_eq. eauto using lookup_lt_Some.
  - intros j Hj. by apply list_lookup_insert_ne.
Qed.

Lemma toggleCollapse_flips_witness :
  let l := [mkItem 1 "A" 0 true; mkItem 2 "B" 0 false; mkItem 3 "C" 0 true] in
  ∃ r,
    toggleCollapse l 2 = [SetAttributes (Some <$> r)] ∧
    toggleCollapse r 2 = [SetAttributes (Some <$> l)] ∧
    length r = length l ∧
    (∀ k x, l !! k = Some x → id x = 2%Z →
       r = <[k := flipCollapsed x]> l ∧
       r !! k = Some (mkItem (id x) (label x) (value x) (negb (collapsed x))) ∧
       ∀ j, j ≠ k → r !! j = l !! j) ∧
    (2%Z ∉ id <$> l → r = l).
Proof.
  intros l. apply (toggleCollapse_flips l 2).
  apply (bool_decide_unpack _). vm_compute. exact I.
Defined.

(** ** The distinct-ids invariant *)

Lemma id_known_or_unknown (a : UniqueIdentifier) (attribute : list Item) :
  (∃ X i x, a = UNumber X ∧ firstWithId X attribute i x) ∨
  (∀ X, a = UNumber X → X ∉ id <$> attribute).
Proof.
  destruct a as [n|s]; [|right; by intros X [=]].
  destruct (decide (n ∈ id <$> attribute)) as [Hin|Hout].
  - left. destruct (firstWithId_exists _ _ Hin) as (i & x & Hf).
    by exists n, i, x.
  - right. by intros X [= <-].
Qed.

Lemma nonempty_snoc {A} (l : list A) : l ≠ [] → ∃ front z, l = front ++ [z].
Proof.
  destruct l as [|z front _] using rev_ind; [done|]. intros _. by exists front, z.
Qed.

(** Whatever the event, what [handleDragEnd] emits is a permutation of the
    list, except on the empty list, where it emits [[undefined]]. *)
Lemma handleDragEnd_emits attribute event cells :
  SetAttributes cells ∈ handleDragEnd attribute event →
  (∃ r, cells = Some <$> r ∧ r ≡ₚ attribute) ∨
  (attribute = [] ∧ cells = [None]).
Proof.
  destruct event as [a [b|]]; [|by intros ?%elem_of_nil].
  destruct (decide (a = b)) as [->|Hab].
  { unfold handleDragEnd. simpl. rewrite decide_True by done.
    by intros ?%elem_of_nil. }
  destruct (decide (attribute = [])) as [->|Hne].
  { rewrite handleDragEnd_empty by done.
    intros [= ->]%list_elem_of_singleton. by right. }
  intros Hin. left.
  destruct (nonempty_snoc attribute Hne) as (front & z & Hl).
  destruct (id_known_or_unknown a attribute) as [(X & i & x & -> & HX)|Ha];
    destruct (id_known_or_unknown b attribute) as [(Y & j & y & -> & HY)|Hb].
  - rewrite (handleDragEnd_found _ X Y i j x y) in Hin by (done || congruence).
    apply list_elem_of_singleton in Hin as [= ->]. eexists. split; [done|].
    destruct HX as (Hi & _ & _). by rewrite insertAt_perm, <- delete_Permutation.
  - rewrite (handleDragEnd_over_unknown _ X b i x) in Hin by done.
    apply list_elem_of_singleton in Hin as [= ->]. eexists. split; [done|].
    destruct HX as (Hi & _ & _).
    rewrite <- Permutation_cons_append. by rewrite <- delete_Permutation.
  - subst attribute.
    rewrite (handleDragEnd_active_unknown front z a Y j y) in Hin by done.
    apply list_elem_of_singleton in Hin as [= ->]. eexists. split; [done|].
    by rewrite insertAt_perm, Permutation_cons_append.
  - subst attribute. rewrite handleDragEnd_both_unknown in Hin by done.
    apply list_elem_of_singleton in Hin as [= ->]. by eexists.
Qed.

Lemma distinctIds_items (r : list Item) :
  distinctIds (Some <$> r) ↔ NoDup (id <$> r).
Proof.
  unfold distinctIds. rewrite <- list_fmap_compose.
  change (NoDup (Some ∘ id <$> r) ↔ NoDup (id <$> r)).
  rewrite list_fmap_compose. apply (NoDup_fmap Some).
Qed.

Lemma fresh_id_distinct (attribute : list Item) (newItem : Item) :
  NoDup (id <$> attribute) → id newItem = (getMaxId attribute + 1)%Z →
  NoDup (id <$> attribute ++ [newItem]).
Proof.
  intros Hnd Hid. rewrite fmap_app. apply NoDup_app. split; [done|].
  split; [|apply NoDup_singleton].
  intros n (x & -> & Hx)%list_elem_of_fmap Hn.
  apply list_elem_of_singleton in Hn. pose proof (getMaxId_upper _ _ Hx). lia.
Qed.

Lemma filter_ids_distinct (P : Item → Prop) `{!∀ x, Decision (P x)}
    (attribute : list Item) :
  NoDup (id <$> attribute) → NoDup (id <$> filter P attribute).
Proof.
  induction attribute as [|x l IH]; [done|]. rewrite fmap_cons.
  intros [Hx Hnd]%NoDup_cons. rewrite filter_cons.
  destruct (decide (P x)); [|by apply IH].
  rewrite fmap_cons. apply NoDup_cons. split; [|by apply IH].
  intros (y & Hid & Hy)%list_elem_of_fmap. apply Hx. rewrite Hid.
  apply list_elem_of_fmap_2. by apply list_elem_of_filter in Hy as [_ Hy].
Qed.

(** C7, as the code has it.  On a list with pairwise distinct ids, the
    array each of the five handlers emits has pairwise distinct ids,
    provided, for the two handlers that make a new id, that the maximum of
    the ids is a safe integer.  The emitted array is a list of items in
    every case but one: [handleDragEnd] on the empty list emits the
    one-cell array [[undefined]]. *)
Theorem handlers_keep_ids_distinct (control : option Control)
    (attribute : list Item) (op : Op) (cells : list (option Item)) :
  NoDup (id <$> attribute) →
  (assignsId op = true → safeMaxId attribute) →
  SetAttributes cells ∈ handler control attribute op →
  distinctIds cells ∧
  ((∃ r, cells = Some <$> r ∧ NoDup (id <$> r)) ∨
   (attribute = [] ∧ cells = [None])).
Proof.
  intros Hnd Hsafe Hin.
  assert ((∃ r, cells = Some <$> r ∧ NoDup (id <$> r)) ∨
          (attribute = [] ∧ cells = [None])) as Hshape.
  { destruct op as [now|i|i|i|event]; simpl in Hin.
    - left. unfold addItem in Hin.
      apply elem_of_cons in Hin as [[= ->]|Hin];
        [|by apply list_elem_of_singleton in Hin].
      eexists. split; [done|]. apply fresh_id_distinct; [done|].
      by apply fresh_id_exact, Hsafe.
    - left. unfold removeItem in Hin.
      destruct (isDisabledRemove control attribute);
        [by apply elem_of_nil in Hin|].
      apply list_elem_of_singleton in Hin as [= ->].
      eexists. split; [done|]. by apply filter_ids_distinct.
    - left. unfold duplicateItem in Hin.
      destruct (find _ attribute) as [src|]; [|by apply elem_of_nil in Hin].
      apply list_elem_of_singleton in Hin as [= ->].
      eexists. split; [done|]. apply fresh_id_distinct; [done|].
      by apply fresh_id_exact, Hsafe.
    - left. rewrite toggleCollapse_calls in Hin.
      apply list_elem_of_singleton in Hin as [= ->].
      eexists. split; [done|]. by rewrite toggled_ids.
    - destruct (handleDragEnd_emits _ _ _ Hin) as [(r & -> & Hperm)|[-> ->]];
        [left|by right].
      exists r. split; [done|]. by rewrite Hperm. }
  split; [|done].
  destruct Hshape as [(r & -> & Hr)|[_ ->]].
  - by apply distinctIds_items.
  - apply NoDup_singleton.
Qed.

Lemma handlers_keep_ids_distinct_witness :
  let a := mkItem 4 "A" 0 true in
  let b := mkItem 9 "B" 0 false in
  let cells := [Some a; Some b; Some (mkItem 10 "A" 0 true)] in
  distinctIds cells ∧
  ((∃ r, cells = Some <$> r ∧ NoDup (id <$> r)) ∨
   ([a; b] = [] ∧ cells = [None])).
Proof.
  intros a b cells.
  apply (handlers_keep_ids_distinct None [a; b] (Duplicate 4) cells).
  - apply (bool_decide_unpack _). vm_compute. exact I.
  - intros _. apply safeMaxId_getMaxId. reflexivity.
  - apply list_elem_of_here.
Defined.

(** C7, as stated, covers every list with pairwise distinct ids.  On the
    one-item list with id [2 ^ 53] the new item of [addItem] gets that id
    again: the emitted list holds it twice. *)
Lemma addItem_repeats_id_counterexample :
  let old := mkItem 9007199254740992 "A" 0 true in
  let cells := [Some old; Some (mkItem 9007199254740992 "New Item" 5 true)] in
  NoDup (id <$> [old]) ∧
  SetAttributes cells ∈ handler None [old] (Add 5) ∧
  ¬ distinctIds cells.
Proof.
  intros old cells. split; [apply NoDup_singleton|].
  split; [apply list_elem_of_here|].
  unfold distinctIds. intros [Hnotin _]%NoDup_cons. apply Hnotin.
  apply list_elem_of_here.
Qed.

(** ** Scroll to the new item *)

Lemma mapM_cells (l : list Item) : mapM (λ cell, cell) (Some <$> l) = Some l.
Proof. by apply mapM_fmap_Some. Qed.

(** A commit with the flag down: the effect, if it runs at all, calls
    nothing. *)
Lemma commit_flag_down height again s :
  st_newItemAdded s = false →
  commit height again s =
    Some (mkMounted (st_attribute s) (st_array s) false
            (Some (st_array s, false))
            (st_log s ++ [Committed (st_attribute s)])).
Proof.
  intros Hflag. unfold commit. simpl. rewrite Hflag.
  case_decide as Hdeps; [by rewrite Hdeps | done].
Qed.

(** A commit with the flag up that the effect has not seen yet: the effect
    scrolls to the height of the committed list and lowers the flag. *)
Lemma commit_flag_up height again s :
  st_newItemAdded s = true →
  st_deps s ≠ Some (st_array s, true) →
  commit height again s =
    again
      (mkMounted (st_attribute s) (st_array s) true (Some (st_array s, true))
         (st_log s ++ [Committed (st_attribute s)]))
      [ScrollTo (height (st_attribute s)); SetNewItemAdded false].
Proof.
  intros Hflag Hdeps. unfold commit. simpl. rewrite Hflag.
  by rewrite decide_False.
Qed.

Lemma cycle_S height batched fuel s calls :
  cycle height batched (S fuel) s calls =
    if batched
    then s ← performAll s calls; commit height (cycle height batched fuel) s
    else performEach (commit height (cycle height batched fuel)) s calls.
Proof. done. Qed.

(** The calls of the effect: one scroll, and the render that lowers the
    flag ends the cycle. *)
Lemma cycle_effect_calls height batched fuel s top :
  cycle height batched (S fuel) s [ScrollTo top; SetNewItemAdded false] =
    Some (mkMounted (st_attribute s) (st_array s) false
            (Some (st_array s, false))
            (st_log s ++ [Scrolled top; Committed (st_attribute s)])).
Proof.
  rewrite cycle_S.
  destruct batched; cbn -[cycle commit]; rewrite commit_flag_down by done;
    simpl; by rewrite <- app_assoc.
Qed.

Lemma scrolls_app log1 log2 : scrolls (log1 ++ log2) = scrolls log1 + scrolls log2.
Proof. unfold scrolls. by rewrite filter_app, length_app. Qed.

(** Every event but a click on the add button calls [setAttributes] at most
    once and nothing else. *)
Lemma react_other control attribute ev :
  isAdd ev = false →
  react control attribute ev = [] ∨
  ∃ cells, react control attribute ev = [SetAttributes cells].
Proof.
  destruct ev as [[now|i|i|i|event]|l]; simpl; [done|..]; intros _.
  - unfold removeItem. destruct (isDisabledRemove _ _); eauto.
  - unfold duplicateItem. destruct (find _ _); eauto.
  - eauto.
  - unfold handleDragEnd. destruct (over event); [|eauto].
    case_decide; eauto.
  - eauto.
Qed.

(** A click on the add button, from a settled component. *)
Lemma dispatch_add height control batched fuel s now :
  settled s →
  let newItem :=
    mkItem (JsNumber.add (getMaxId (st_attribute s)) 1) "New Item" now true in
  let rendered := st_attribute s ++ [newItem] in
  dispatch height control batched (S (S fuel)) s (Fire (Add now)) =
    Some (mkMounted rendered (S (st_array s)) false (Some (S (st_array s), false))
            (st_log s ++ (if batched then [] else [Committed rendered]) ++
             [Committed rendered; Scrolled (height rendered);
              Committed rendered])).
Proof.
  intros [Hflag Hdeps] newItem rendered. unfold dispatch.
  cbn -[cycle]. fold newItem. fold rendered.
  rewrite cycle_S.
  destruct batched; cbn -[cycle commit]; rewrite mapM_cells; cbn -[cycle commit].
  - rewrite commit_flag_up; [|done|simpl; rewrite Hdeps; by intros [=]].
    rewrite cycle_effect_calls. simpl. by rewrite <- app_assoc.
  - rewrite commit_flag_down by done. cbn -[cycle commit].
    rewrite commit_flag_up; [|done|simpl; by intros [=]].
    rewrite cycle_effect_calls. simpl. by rewrite <- !app_assoc.
Qed.

Lemma dispatch_other height control batched fuel s ev s' :
  settled s → isAdd ev = false →
  dispatch height control batched (S fuel) s ev = Some s' →
  settled s' ∧ scrolls (st_log s') = scrolls (st_log s).
Proof.
  intros [Hflag Hdeps] Hev. unfold dispatch.
  destruct (react_other control (st_attribute s) ev Hev) as [->|[cells ->]].
  { by intros [= <-]. }
  assert (cycle height batched (S fuel) s [SetAttributes cells] =
          l ← mapM (λ cell, cell) cells;
          Some (mkMounted l (S (st_array s)) false (Some (S (st_array s), false))
                  (st_log s ++ [Committed l]))) as ->.
  { rewrite cycle_S.
    destruct batched; cbn -[cycle commit]; destruct (mapM _ cells) as [l|];
      try done; cbn -[cycle commit]; by rewrite commit_flag_down. }
  destruct (mapM _ cells) as [l|]; [|done]. simpl. intros [= <-].
  split; [done|]. simpl. rewrite scrolls_app.
  change (scrolls [Committed l]) with 0. lia.
Qed.

Lemma dispatch_settled height control batched fuel s ev s' :
  settled s →
  dispatch height control batched (S (S fuel)) s ev = Some s' →
  settled s' ∧
  scrolls (st_log s') = scrolls (st_log s) + (if isAdd ev then 1 else 0).
Proof.
  intros Hs. destruct (isAdd ev) eqn:Hev.
  - destruct ev as [[now| | | |]|]; try done.
    rewrite dispatch_add by done. intros [= <-]. split; [done|].
    simpl. rewrite !scrolls_app. by destruct batched.
  - intros Hd. rewrite Nat.add_0_r. by eapply dispatch_other.
Qed.

Lemma mount_settled height batched fuel attribute s :
  mount height batched fuel attribute = Some s →
  settled s ∧ scrolls (st_log s) = 0.
Proof.
  unfold mount. rewrite commit_flag_down by done. by intros [= <-].
Qed.

Lemma run_settled height control batched fuel s evs s' :
  settled s →
  run height control batched (S (S fuel)) s evs = Some s' →
  settled s' ∧ scrolls (st_log s') = scrolls (st_log s) + adds evs.
Proof.
  revert s. induction evs as [|ev evs IH]; intros s Hs.
  - intros [= <-]. split; [done|]. unfold adds. simpl. lia.
  - cbn [run].
    destruct (dispatch height control batched (S (S fuel)) s ev) as [s1|] eqn:Hd;
      [|done].
    simpl. intros Hrun.
    destruct (dispatch_settled _ _ _ _ _ _ _ Hs Hd) as [Hs1 Hc1].
    destruct (IH _ Hs1 Hrun) as [Hs' Hc']. split; [done|].
    rewrite Hc', Hc1. unfold adds. rewrite filter_cons.
    destruct (isAdd ev); simpl; lia.
Qed.

(** C8.  Take any run of the mounted component: its first render followed
    by any events, the state updates of a handler rendered together or one
    by one.  The list container has been scrolled once for each click on
    the add button and never otherwise.  A further click on the add button
    is handled to the end, and what it adds to the observations is: the
    commit of the list with the new item (twice when the two updates of
    [addItem] are rendered one by one), then one scroll, to the height of
    that list, then the commit that lowers the flag; the flag is down
    afterwards and the effect has nothing left to do. *)
Theorem scroll_once_per_add (height : list Item → Z) (control : option Control)
    (batched : bool) (fuel : nat) (attribute : list Item) (evs : list Event)
    (s : Mounted) (now : Z) :
  2 ≤ fuel →
  (s0 ← mount height batched fuel attribute;
   run height control batched fuel s0 evs) = Some s →
  scrolls (st_log s) = adds evs ∧
  ∃ newItem s',
    addItem now (st_attribute s) =
      [SetAttributes (Some <$> st_attribute s ++ [newItem]);
       SetNewItemAdded true] ∧
    dispatch height control batched fuel s (Fire (Add now)) = Some s' ∧
    st_log s' =
      st_log s ++
      (if batched then [] else [Committed (st_attribute s ++ [newItem])]) ++
      [Committed (st_attribute s ++ [newItem]);
       Scrolled (height (st_attribute s ++ [newItem]));
       Committed (st_attribute s ++ [newItem])] ∧
    st_attribute s' = st_attribute s ++ [newItem] ∧
    st_newItemAdded s' = false ∧
    settled s'.
Proof.
  intros Hfuel Hrun. destruct fuel as [|[|fuel]]; [lia..|].
  destruct (mount height batched (S (S fuel)) attribute) as [s0|] eqn:Hm; [|done].
  simpl in Hrun. destruct (mount_settled _ _ _ _ _ Hm) as [Hs0 Hc0].
  destruct (run_settled _ _ _ _ _ _ _ Hs0 Hrun) as [Hs Hc].
  split; [lia|].
  eexists _, _. split; [reflexivity|].
  split; [by apply dispatch_add|]. done.
Qed.

Lemma scroll_once_per_add_witness :
  let height := λ l : list Item, (40 * Z.of_nat (length l))%Z in
  let a := mkItem 1 "A" 0 true in
  let b := mkItem 2 "New Item" 7 true in
  let evs := [Fire (Add 7); Fire (ToggleCollapse 2)] in
  let s := mkMounted [a; flipCollapsed b] 2 false (Some (2, false))
             [Committed [a]; Committed [a; b]; Scrolled 80; Committed [a; b];
              Committed [a; flipCollapsed b]] in
  scrolls (st_log s) = adds evs ∧
  ∃ newItem s',
    addItem 9 (st_attribute s) =
      [SetAttributes (Some <$> st_attribute s ++ [newItem]);
       SetNewItemAdded true] ∧
    dispatch height None true 2 s (Fire (Add 9)) = Some s' ∧
    st_log s' =
      st_log s ++ [] ++
      [Committed (st_attribute s ++ [newItem]);
       Scrolled (height (st_attribute s ++ [newItem]));
       Committed (st_attribute s ++ [newItem])] ∧
    st_attribute s' = st_attribute s ++ [newItem] ∧
    st_newItemAdded s' = false ∧
    settled s'.
Proof.
  intros height a b evs s.
  apply (scroll_once_per_add height None true 2 [a] evs s 9).
  - lia.
  - reflexivity.
Defined.

(** ** The colour popover *)

Import Popover.

Lemma setAttributes_onChange_lookup attrKey elementName attributes
    elementColors colorKey value :
  setAttributes
    (onChange attrKey elementName attributes elementColors colorKey value)
    attributes !! attrKey =
  Some (<[ elementName :=
             <[ colorKey := nullish value (JString EmptyString) ]>
               (spread elementColors) ]>
          (spread (attributes !! attrKey))).
Proof.
  unfold setAttributes, onChange.
  apply lookup_union_Some_l, lookup_singleton_eq.
Qed.

Lemma nullish_value value fallback :
  (value ≠ JUndefined → value ≠ JNull → nullish value fallback = value) ∧
  (value = JUndefined ∨ value = JNull → nullish value fallback = fallback).
Proof. split; [by destruct value | by intros [->| ->]]. Qed.

(** C10, as the code has it.  After [onChange(k, v)] the stored colour
    [attributes[attrKey][element.name][k]] is [v], or the empty string when
    [v] is [null] or [undefined].  The other colour keys of the element hold
    what [elementColors] holds, hence what was stored when [elementColors]
    is the stored entry of the element; the entries of the other elements
    under [attrKey], and the other attributes, are as before. *)
Theorem onChange_writes_color (attrKey elementName : string)
    (attributes : gmap string (gmap string (gmap string JsValue)))
    (elementColors : option (gmap string JsValue))
    (colorKey : string) (value : JsValue) :
  let attributes' :=
    setAttributes
      (onChange attrKey elementName attributes elementColors colorKey value)
      attributes in
  (value ≠ JUndefined → value ≠ JNull →
   colorAt attributes' attrKey elementName colorKey = Some value) ∧
  (value = JUndefined ∨ value = JNull →
   colorAt attributes' attrKey elementName colorKey = Some (JString EmptyString)) ∧
  (∀ k, k ≠ colorKey →
     colorAt attributes' attrKey elementName k = spread elementColors !! k) ∧
  (elementColors = elementAt attributes attrKey elementName →
   ∀ k, k ≠ colorKey →
     colorAt attributes' attrKey elementName k =
     colorAt attributes attrKey elementName k) ∧
  (∀ n, n ≠ elementName →
     elementAt attributes' attrKey n = elementAt attributes attrKey n) ∧
  (∀ a, a ≠ attrKey → attributes' !! a = attributes !! a).
Proof.
  intros attributes'.
  assert (∀ k, colorAt attributes' attrKey elementName k =
               <[ colorKey := nullish value (JString EmptyString) ]>
                 (spread elementColors) !! k) as Hcolor.
  { intros k. unfold colorAt, elementAt, attributes'.
    rewrite setAttributes_onChange_lookup. simpl.
    by rewrite lookup_insert_eq. }
  assert (∀ k, k ≠ colorKey →
     colorAt attributes' attrKey elementName k = spread elementColors !! k)
    as Hother.
  { intros k Hk. rewrite Hcolor. by apply lookup_insert_ne. }
  split; [|split; [|split; [|split; [|split]]]].
  - intros Hu Hn. rewrite Hcolor, lookup_insert_eq.
    by rewrite (proj1 (nullish_value value _)).
  - intros Hnull. rewrite Hcolor, lookup_insert_eq.
    by rewrite (proj2 (nullish_value value _)).
  - done.
  - intros -> k Hk. rewrite Hother by done.
    unfold colorAt. by destruct (elementAt attributes attrKey elementName).
  - intros n Hn. unfold elementAt, attributes'.
    rewrite setAttributes_onChange_lookup. simpl.
    rewrite lookup_insert_ne by done.
    by destruct (attributes !! attrKey).
  - intros a Ha. unfold attributes', setAttributes, onChange.
    rewrite lookup_union_r; [done|]. by apply lookup_singleton_ne.
Qed.

Lemma onChange_writes_color_witness :
  let stored : gmap string JsValue :=
    {[ "text" := JString "#111"; "background" := JString "#eee" ]} in
  let attributes : gmap string (gmap string (gmap string JsValue)) :=
    {[ "colors" := {[ "button" := stored; "link" := {[ "text" := JString "#00f" ]} ]} ]} in
  let attributes' :=
    setAttributes (onChange "colors" "button" attributes (Some stored) "text" JNull)
      attributes in
  colorAt attributes' "colors" "button" "text" = Some (JString EmptyString) ∧
  colorAt attributes' "colors" "button" "background" =
    colorAt attributes "colors" "button" "background" ∧
  elementAt attributes' "colors" "link" = elementAt attributes "colors" "link".
Proof.
  intros stored attributes attributes'.
  pose proof (onChange_writes_color "colors" "button" attributes (Some stored)
                "text" JNull) as (_ & Hnull & _ & Hstored & Helem & _).
  split; [apply Hnull; by right|].
  split; [apply Hstored; [reflexivity | discriminate] | apply Helem; discriminate].
Defined.

(** C10, as stated, leaves every other colour key of the element
    unchanged.  The entry written is built from the prop [elementColors],
    not from the stored entry: with [elementColors] undefined, a stored
    colour of the element is dropped. *)
Lemma onChange_drops_stored_color_counterexample :
  let stored : gmap string JsValue :=
    {[ "text" := JString "#111"; "background" := JString "#eee" ]} in
  let attributes : gmap string (gmap string (gmap string JsValue)) :=
    {[ "colors" := {[ "button" := stored ]} ]} in
  let attributes' :=
    setAttributes
      (onChange "colors" "button" attributes None "text" (JString "#222"))
      attributes in
  colorAt attributes "colors" "button" "background" = Some (JString "#eee") ∧
  colorAt attributes' "colors" "button" "text" = Some (JString "#222") ∧
  colorAt attributes' "colors" "button" "background" = None.
Proof. intros stored attributes attributes'. by vm_compute. Qed.

(** * Further properties of the repeater *)

Import Repeater.

(** ** Drag end, whatever the event *)

Lemma insertAt_lookup_lt {V} q k (x : V) (l : list V) :
  k < q → q ≤ length l → insertAt q x l !! k = l !! k.
Proof.
  intros Hk Hq. unfold insertAt.
  rewrite lookup_app_l by (rewrite length_take; lia).
  by apply lookup_take_lt.
Qed.

Lemma insertAt_lookup_gt {V} q k (x : V) (l : list V) :
  q < k → q ≤ length l → insertAt q x l !! k = l !! (k - 1).
Proof.
  intros Hk Hq. unfold insertAt.
  rewrite lookup_app_r by (rewrite length_take; lia).
  rewrite length_take_le by done.
  destruct (k - q) as [|d] eqn:Hd; [lia|]. simpl.
  rewrite lookup_drop. f_equal. lia.
Qed.

Lemma distinct_firstWithId (attribute : list Item) k x :
  NoDup (id <$> attribute) → attribute !! k = Some x →
  firstWithId (id x) attribute k x.
Proof.
  intros Hnd Hk. split; [done|]. split; [done|].
  intros j y Hj Hy Hid.
  assert (j = k); [|lia].
  apply (NoDup_lookup (id <$> attribute) j k (id x)); [done|..];
    rewrite list_lookup_fmap; [by rewrite Hy; simpl; rewrite Hid
                              |by rewrite Hk].
Qed.

(** X1.  On a non-empty list [handleDragEnd] calls [setAttributes] at most
    once, and what it emits is a list of items that is a permutation of the
    list, of the same length: whatever the event, also one naming ids that
    no item has, no item is lost or doubled and no cell is [undefined]. *)
Theorem handleDragEnd_keeps_items (attribute : list Item) (event : DragEndEvent) :
  attribute ≠ [] →
  (handleDragEnd attribute event = [] ∨
   ∃ r, handleDragEnd attribute event = [SetAttributes (Some <$> r)] ∧
        r ≡ₚ attribute ∧ length r = length attribute).
Proof.
  intros Hne.
  destruct (handleDragEnd attribute event) as [|c calls] eqn:Hcalls; [by left|].
  right.
  assert (∃ cells, c = SetAttributes cells ∧ calls = []) as (cells & -> & ->).
  { unfold handleDragEnd in Hcalls. destruct (over event); [|done].
    case_decide; [done|]. injection Hcalls as <- <-. eauto. }
  destruct (handleDragEnd_emits attribute event cells) as [(r & -> & Hperm)|[-> _]];
    [rewrite Hcalls; apply list_elem_of_here| |done].
  exists r. split; [done|]. split; [done|]. by rewrite Hperm.
Qed.

Lemma handleDragEnd_keeps_items_witness :
  let l := [mkItem 1 "A" 0 true; mkItem 2 "B" 0 true; mkItem 3 "C" 0 true] in
  let event := mkDragEnd (UString "ghost") (Some (UNumber 2)) in
  handleDragEnd l event = [] ∨
  ∃ r, handleDragEnd l event = [SetAttributes (Some <$> r)] ∧
       r ≡ₚ l ∧ length r = length l.
Proof.
  intros l event. apply (handleDragEnd_keeps_items l event). discriminate.
Defined.

(** X2.  Where every item lands after a drag: with the dragged item at
    index [i] and the item dropped on at index [j], the emitted list holds
    the dragged item at [j]; the items between the two indices move one
    place towards [i]; all other places are unchanged. *)
Theorem handleDragEnd_positions (attribute : list Item) (X Y : Z)
    (i j : nat) (x y : Item) :
  X ≠ Y → firstWithId X attribute i x → firstWithId Y attribute j y →
  ∃ r,
    handleDragEnd attribute (mkDragEnd (UNumber X) (Some (UNumber Y))) =
      [SetAttributes (Some <$> r)] ∧
    r !! j = Some x ∧
    (∀ k, i ≤ k < j → r !! k = attribute !! (S k)) ∧
    (∀ k, j < k ≤ i → r !! k = attribute !! (k - 1)) ∧
    (∀ k, (k < i ∧ k < j) ∨ (i < k ∧ j < k) → r !! k = attribute !! k).
Proof.
  intros HXY HX HY. exists (insertAt j x (delete i attribute)).
  split; [by apply (handleDragEnd_found _ X Y i j x y)|].
  destruct HX as (Hi & _ & _), HY as (Hj & _ & _).
  pose proof (lookup_lt_Some _ _ _ Hi). pose proof (lookup_lt_Some _ _ _ Hj).
  assert (length (delete i attribute) = length attribute - 1) as Hlen
    by (apply length_delete; eauto).
  split; [apply insertAt_lookup; lia|]. split; [|split].
  - intros k [Hik Hkj]. rewrite insertAt_lookup_lt by lia.
    by apply list_lookup_delete_ge.
  - intros k [Hjk Hki]. rewrite insertAt_lookup_gt by lia.
    apply list_lookup_delete_lt. lia.
  - intros k [[Hki Hkj]|[Hik Hjk]].
    + rewrite insertAt_lookup_lt by lia. by apply list_lookup_delete_lt.
    + rewrite insertAt_lookup_gt by lia.
      rewrite list_lookup_delete_ge by lia. f_equal. lia.
Qed.

Lemma handleDragEnd_positions_witness :
  let a := mkItem 1 "A" 0 true in
  let b := mkItem 2 "B" 0 true in
  let c := mkItem 3 "C" 0 true in
  let d := mkItem 4 "D" 0 true in
  let l := [a; b; c; d] in
  ∃ r,
    handleDragEnd l (mkDragEnd (UNumber 4) (Some (UNumber 2))) =
      [SetAttributes (Some <$> r)] ∧
    r !! 1 = Some d ∧
    (∀ k, 3 ≤ k < 1 → r !! k = l !! (S k)) ∧
    (∀ k, 1 < k ≤ 3 → r !! k = l !! (k - 1)) ∧
    (∀ k, (k < 3 ∧ k < 1) ∨ (3 < k ∧ 1 < k) → r !! k = l !! k).
Proof.
  intros a b c d l.
  apply (handleDragEnd_positions l 4 2 3 1 d b).
  - lia.
  - apply distinct_firstWithId; [|reflexivity].
    apply (bool_decide_unpack _). vm_compute. exact I.
  - apply distinct_firstWithId; [|reflexivity].
    apply (bool_decide_unpack _). vm_compute. exact I.
Defined.

(** X3.  A drag can be undone: on a list with pairwise distinct ids, after
    the item [X] has been dropped on another item, dropping [X] on the item
    that now sits at the index [X] came from emits the original list. *)
Theorem handleDragEnd_undo (attribute : list Item) (X Y : Z) :
  NoDup (id <$> attribute) →
  X ≠ Y → X ∈ id <$> attribute → Y ∈ id <$> attribute →
  ∃ i x r z,
    firstWithId X attribute i x ∧
    handleDragEnd attribute (mkDragEnd (UNumber X) (Some (UNumber Y))) =
      [SetAttributes (Some <$> r)] ∧
    r !! i = Some z ∧ id z ≠ X ∧
    handleDragEnd r (mkDragEnd (UNumber X) (Some (UNumber (id z)))) =
      [SetAttributes (Some <$> attribute)].
Proof.
  intros Hnd HXY HX HY.
  destruct (firstWithId_exists _ _ HX) as (i & x & Hfx).
  destruct (firstWithId_exists _ _ HY) as (j & y & Hfy).
  pose proof Hfx as (Hi & Hidx & _). pose proof Hfy as (Hj & Hidy & _).
  pose proof (lookup_lt_Some _ _ _ Hi). pose proof (lookup_lt_Some _ _ _ Hj).
  assert (i ≠ j) as Hij by (intros ->; congruence).
  assert (length (delete i attribute) = length attribute - 1) as Hlen
    by (apply length_delete; eauto).
  set (r := insertAt j x (delete i attribute)).
  assert (r ≡ₚ attribute) as Hperm
    by (unfold r; by rewrite insertAt_perm, <- delete_Permutation).
  assert (NoDup (id <$> r)) as Hndr by (by rewrite Hperm).
  assert (r !! j = Some x) as Hrj by (apply insertAt_lookup; lia).
  assert (i < length r) as Hir by (rewrite Hperm; done).
  destruct (lookup_lt_is_Some_2 r i Hir) as [z Hz].
  assert (id z ≠ X) as HzX.
  { intros Heq. apply Hij.
    apply (NoDup_lookup (id <$> r) i j X); [done|..];
      rewrite list_lookup_fmap; [by rewrite Hz; simpl; rewrite Heq
                                |by rewrite Hrj; simpl; rewrite Hidx]. }
  exists i, x, r, z. split; [done|].
  split; [by apply (handleDragEnd_found _ X Y i j x y)|].
  split; [done|]. split; [done|].
  rewrite (handleDragEnd_found r X (id z) j i x z); [|congruence|..].
  - do 3 f_equal. unfold r. rewrite insertAt_delete by lia.
    unfold insertAt. rewrite delete_take_drop.
    rewrite take_app_le by (rewrite length_take; lia).
    rewrite take_take, Nat.min_id.
    rewrite drop_app_ge by (rewrite length_take; lia).
    rewrite length_take_le by lia. rewrite Nat.sub_diag. simpl.
    by apply take_drop_middle.
  - rewrite <- Hidx. by apply distinct_firstWithId.
  - by apply distinct_firstWithId.
Qed.

Lemma handleDragEnd_undo_witness :
  let l := [mkItem 1 "A" 0 true; mkItem 2 "B" 0 true; mkItem 3 "C" 0 true;
            mkItem 4 "D" 0 false] in
  ∃ i x r z,
    firstWithId 1 l i x ∧
    handleDragEnd l (mkDragEnd (UNumber 1) (Some (UNumber 3))) =
      [SetAttributes (Some <$> r)] ∧
    r !! i = Some z ∧ id z ≠ 1%Z ∧
    handleDragEnd r (mkDragEnd (UNumber 1) (Some (UNumber (id z)))) =
      [SetAttributes (Some <$> l)].
Proof.
  intros l. apply (handleDragEnd_undo l 1 3).
  - apply (bool_decide_unpack _). vm_compute. exact I.
  - lia.
  - apply (bool_decide_unpack _). vm_compute. exact I.
  - apply (bool_decide_unpack _). vm_compute. exact I.
Defined.

(** ** Add, duplicate and remove together *)

Lemma filter_fresh_id (attribute : list Item) (newItem : Item) :
  id newItem = (getMaxId attribute + 1)%Z →
  filter (λ x, id x ≠ id newItem) (attribute ++ [newItem]) = attribute.
Proof.
  intros Hid. rewrite filter_app, filter_cons_False, filter_nil, app_nil_r
    by (intros Hne; by apply Hne).
  apply filter_other_id_absent.
  intros (x & Hx & Hin)%list_elem_of_fmap.
  pose proof (getMaxId_upper _ _ Hin). lia.
Qed.

Lemma isDisabledRemove_two control (attribute : list Item) :
  length attribute ≠ 1 → isDisabledRemove control attribute = false.
Proof.
  intros Hlen. apply not_true_is_false.
  rewrite isDisabledRemove_true. by intros [_ ?].
Qed.

(** X4.  Removing the item just added gives back the list: when the list
    was not empty and the maximum of its ids is a safe integer,
    [removeItem] with the id of the item [addItem] appended emits the
    original list, and [addItem] on that list assigns the same id again.
    The first item added to an empty list cannot be removed while the
    prevent-empty policy is on. *)
Theorem addItem_then_removeItem (control : option Control) (now : Z)
    (attribute : list Item) :
  ∃ newItem,
    addItem now attribute =
      [SetAttributes (Some <$> attribute ++ [newItem]); SetNewItemAdded true] ∧
    (attribute ≠ [] → safeMaxId attribute →
     removeItem control (attribute ++ [newItem]) (id newItem) =
       [SetAttributes (Some <$> attribute)] ∧
     ∀ now', ∃ again,
       addItem now' attribute =
         [SetAttributes (Some <$> attribute ++ [again]); SetNewItemAdded true] ∧
       id again = id newItem) ∧
    (attribute = [] → preventEmptyEnabled control →
     removeItem control (attribute ++ [newItem]) (id newItem) = []).
Proof.
  exists (mkItem (JsNumber.add (getMaxId attribute) 1) "New Item" now true).
  split; [done|]. split.
  - intros Hne Hsafe. split; [|intros now'; by eexists].
    rewrite removeItem_enabled.
    + rewrite filter_fresh_id; [done|]. simpl. by apply fresh_id_exact.
    + apply isDisabledRemove_two. rewrite length_app. simpl.
      destruct attribute; [done|simpl; lia].
  - intros -> Hon. unfold removeItem.
    by rewrite (proj2 (isDisabledRemove_true control _)).
Qed.

Lemma addItem_then_removeItem_witness :
  let l := [mkItem 3 "A" 0 true; mkItem 8 "B" 0 false] in
  (∃ newItem,
     addItem 5 l = [SetAttributes (Some <$> l ++ [newItem]); SetNewItemAdded true] ∧
     removeItem None (l ++ [newItem]) (id newItem) = [SetAttributes (Some <$> l)]) ∧
  (∃ newItem,
     addItem 5 [] = [SetAttributes (Some <$> [] ++ [newItem]); SetNewItemAdded true] ∧
     removeItem None ([] ++ [newItem]) (id newItem) = []).
Proof.
  intros l. split.
  - destruct (addItem_then_removeItem None 5 l) as (newItem & Hadd & Hrm & _).
    exists newItem. split; [done|]. apply Hrm; [discriminate|].
    apply safeMaxId_getMaxId. reflexivity.
  - destruct (addItem_then_removeItem None 5 []) as (newItem & Hadd & _ & Hrm).
    exists newItem. split; [done|]. apply Hrm; [reflexivity|].
    intros c Hc. discriminate Hc.
Defined.

(** X5.  Removing the copy [duplicateItem] appended gives back the list,
    when the maximum of the ids is a safe integer; the removal is never
    refused, since the list with the copy has at least two items. *)
Theorem duplicateItem_then_removeItem (control : option Control)
    (attribute : list Item) (i : Z) :
  i ∈ id <$> attribute → safeMaxId attribute →
  ∃ newItem,
    duplicateItem attribute i =
      [SetAttributes (Some <$> attribute ++ [newItem])] ∧
    id newItem ≠ i ∧
    removeItem control (attribute ++ [newItem]) (id newItem) =
      [SetAttributes (Some <$> attribute)].
Proof.
  intros Hin Hsafe.
  destruct (firstWithId_exists _ _ Hin) as (k & src & Hk & Hid & Hmin).
  pose proof (fresh_id_exact attribute Hsafe) as Hfresh.
  exists (mkItem (JsNumber.add (getMaxId attribute) 1) (label src) (value src)
            (collapsed src)).
  split.
  { unfold duplicateItem. by rewrite (find_first _ _ k src). }
  split.
  { simpl. rewrite Hfresh.
    pose proof (getMaxId_upper _ _ (list_elem_of_lookup_2 _ _ _ Hk)). lia. }
  rewrite removeItem_enabled.
  - by rewrite filter_fresh_id.
  - apply isDisabledRemove_two. rewrite length_app. simpl.
    pose proof (lookup_lt_Some _ _ _ Hk). lia.
Qed.

Lemma duplicateItem_then_removeItem_witness :
  let l := [mkItem 6 "A" 11 false] in
  ∃ newItem,
    duplicateItem l 6 = [SetAttributes (Some <$> l ++ [newItem])] ∧
    id newItem ≠ 6%Z ∧
    removeItem None (l ++ [newItem]) (id newItem) = [SetAttributes (Some <$> l)].
Proof.
  intros l. apply (duplicateItem_then_removeItem None l 6).
  - apply list_elem_of_here.
  - apply safeMaxId_getMaxId. reflexivity.
Defined.

(** X6.  Removing the same id a second time changes nothing more: on the
    list a removal emitted, [removeItem] with that id either emits the same
    list again or, the prevent-empty guard having become active, emits
    nothing. *)
Theorem removeItem_twice (control : option Control) (attribute : list Item) (i : Z) :
  isDisabledRemove control attribute = false →
  ∃ r,
    removeItem control attribute i = [SetAttributes (Some <$> r)] ∧
    removeItem control r i =
      if isDisabledRemove control r then [] else [SetAttributes (Some <$> r)].
Proof.
  intros Hen. exists (filter (λ x, id x ≠ i) attribute).
  split; [by apply removeItem_enabled|].
  unfold removeItem.
  rewrite (filter_other_id_absent (filter (λ x, id x ≠ i) attribute) i); [done|].
  intros (x & Hid & Hx)%list_elem_of_fmap.
  apply list_elem_of_filter in Hx as [Hne _]. by apply Hne.
Qed.

Lemma removeItem_twice_witness :
  let l := [mkItem 1 "A" 0 true; mkItem 2 "B" 0 true] in
  ∃ r,
    removeItem None l 2 = [SetAttributes (Some <$> r)] ∧
    removeItem None r 2 =
      if isDisabledRemove None r then [] else [SetAttributes (Some <$> r)].
Proof. intros l. apply (removeItem_twice None l 2). reflexivity. Defined.

(** ** The prevent-empty policy *)

Lemma handler_emits_nonempty (control : option Control)
    (attribute : list Item) (op : Op) (cells : list (option Item)) :
  preventEmptyEnabled control →
  NoDup (id <$> attribute) → attribute ≠ [] →
  (assignsId op = true → safeMaxId attribute) →
  SetAttributes cells ∈ handler control attribute op →
  ∃ r, cells = Some <$> r ∧ r ≠ [] ∧ NoDup (id <$> r).
Proof.
  intros Hon Hnd Hne Hsafe Hin.
  destruct op as [now|i|i|i|event]; simpl in Hin.
  - unfold addItem in Hin.
    apply elem_of_cons in Hin as [[= ->]|Hin];
      [|by apply list_elem_of_singleton in Hin].
    eexists. split; [done|]. split; [by destruct attribute|].
    apply fresh_id_distinct; [done|]. by apply fresh_id_exact, Hsafe.
  - unfold removeItem in Hin.
    destruct (isDisabledRemove control attribute) eqn:Hdis;
      [by apply elem_of_nil in Hin|].
    apply list_elem_of_singleton in Hin as [= ->].
    eexists. split; [done|]. split; [|by apply filter_ids_distinct].
    assert (length attribute ≠ 1) as Hlen.
    { intros Hlen. apply not_true_iff_false in Hdis. apply Hdis.
      by apply isDisabledRemove_true. }
    destruct (decide (i ∈ id <$> attribute)) as [Hi|Hi].
    + pose proof (filter_other_id_length attribute i Hnd Hi) as Hf.
      intros Hnil. rewrite Hnil in Hf. simpl in Hf. lia.
    + by rewrite filter_other_id_absent.
  - unfold duplicateItem in Hin.
    destruct (find _ attribute) as [src|]; [|by apply elem_of_nil in Hin].
    apply list_elem_of_singleton in Hin as [= ->].
    eexists. split; [done|]. split; [by destruct attribute|].
    apply fresh_id_distinct; [done|]. by apply fresh_id_exact, Hsafe.
  - rewrite toggleCollapse_calls in Hin.
    apply list_elem_of_singleton in Hin as [= ->].
    eexists. split; [done|]. split; [by destruct attribute|].
    by rewrite toggled_ids.
  - destruct (handleDragEnd_emits _ _ _ Hin) as [(r & -> & Hperm)|[-> _]];
      [|done].
    exists r. split; [done|]. split; [|by rewrite Hperm].
    intros ->. by apply Permutation_nil_l in Hperm.
Qed.

(** X7.  With the prevent-empty policy on, a non-empty list with pairwise
    distinct ids stays so: whatever any of the five handlers emits is a
    non-empty list of items with pairwise distinct ids, and its length
    differs from that of the list by one at most; for the two handlers that
    make a new id, the maximum of the ids is to be a safe integer. *)
Theorem handlers_keep_list_nonempty (control : option Control)
    (attribute : list Item) (op : Op) (cells : list (option Item)) :
  preventEmptyEnabled control →
  NoDup (id <$> attribute) → attribute ≠ [] →
  (assignsId op = true → safeMaxId attribute) →
  SetAttributes cells ∈ handler control attribute op →
  ∃ r, cells = Some <$> r ∧ r ≠ [] ∧ NoDup (id <$> r) ∧
       length attribute - 1 ≤ length r ≤ length attribute + 1.
Proof.
  intros Hon Hnd Hne Hsafe Hin.
  destruct (handler_emits_nonempty _ _ _ _ Hon Hnd Hne Hsafe Hin)
    as (r & -> & Hr & Hd).
  exists r. split; [done|]. split; [done|]. split; [done|].
  destruct op as [now|i|i|i|event]; simpl in Hin.
  - apply elem_of_cons in Hin as [[= Heq%(inj (fmap Some))]|Hin];
      [|by apply list_elem_of_singleton in Hin].
    rewrite Heq, length_app. simpl. lia.
  - unfold removeItem in Hin. destruct (isDisabledRemove control attribute);
      [by apply elem_of_nil in Hin|].
    apply list_elem_of_singleton in Hin as [= ->%(inj (fmap Some))].
    pose proof (length_filter (λ x, id x ≠ i) attribute).
    destruct (decide (i ∈ id <$> attribute)) as [Hi|Hi].
    + pose proof (filter_other_id_length attribute i Hnd Hi). lia.
    + rewrite filter_other_id_absent by done. lia.
  - unfold duplicateItem in Hin.
    destruct (find _ attribute) as [src|]; [|by apply elem_of_nil in Hin].
    apply list_elem_of_singleton in Hin as [= ->%(inj (fmap Some))].
    rewrite length_app. simpl. lia.
  - rewrite toggleCollapse_calls in Hin.
    apply list_elem_of_singleton in Hin as [= ->%(inj (fmap Some))].
    rewrite length_fmap. lia.
  - destruct (handleDragEnd_emits _ _ _ Hin) as [(r' & Heq & Hperm)|[-> _]];
      [|done].
    apply (inj (fmap Some)) in Heq as ->. rewrite Hperm. lia.
Qed.

Lemma handlers_keep_list_nonempty_witness :
  let a := mkItem 1 "A" 0 true in
  let b := mkItem 2 "B" 0 true in
  ∃ r, [Some b] = Some <$> r ∧ r ≠ [] ∧ NoDup (id <$> r) ∧
       length [a; b] - 1 ≤ length r ≤ length [a; b] + 1.
Proof.
  intros a b.
  apply (handlers_keep_list_nonempty None [a; b] (Remove 1) [Some b]).
  - intros c Hc. discriminate Hc.
  - apply (bool_decide_unpack _). vm_compute. exact I.
  - discriminate.
  - intros _. apply safeMaxId_getMaxId. reflexivity.
  - apply list_elem_of_here.
Defined.

(** X8.  The prevent-empty guard counts items, not ids: on a list of two
    or more items that all carry the same id, [removeItem] with that id
    emits the empty list, whether the policy is on or not. *)
Theorem removeItem_shared_id_empties (control : option Control)
    (attribute : list Item) (i : Z) :
  2 ≤ length attribute → (∀ x, x ∈ attribute → id x = i) →
  removeItem control attribute i = [SetAttributes []].
Proof.
  intros Hlen Hall. rewrite removeItem_enabled by (apply isDisabledRemove_two; lia).
  do 2 f_equal.
  assert (filter (λ x, id x ≠ i) attribute = []) as ->; [|done].
  clear Hlen. induction attribute as [|x l IH]; [done|].
  rewrite filter_cons_False.
  - apply IH. intros y Hy. apply Hall. by apply list_elem_of_further.
  - intros Hne. apply Hne, Hall, list_elem_of_here.
Qed.

Lemma removeItem_shared_id_empties_witness :
  removeItem (Some (mkControl (Some true) false))
    [mkItem 4 "A" 0 true; mkItem 4 "B" 1 false; mkItem 4 "C" 2 true] 4 =
    [SetAttributes []].
Proof.
  apply removeItem_shared_id_empties.
  - simpl. lia.
  - intros x Hx. repeat (apply elem_of_cons in Hx as [->|Hx]; [reflexivity|]).
    by apply elem_of_nil in Hx.
Defined.

(** ** Collapse together with the other handlers *)

Lemma toggled_commute i j x : toggled i (toggled j x) = toggled j (toggled i x).
Proof.
  unfold toggled.
  destruct (decide (id x = i)), (decide (id x = j));
    rewrite ?decide_True, ?decide_False by done; done.
Qed.

Lemma filter_toggled i j (l : list Item) :
  filter (λ x, id x ≠ j) (toggled i <$> l) =
  toggled i <$> filter (λ x, id x ≠ j) l.
Proof.
  induction l as [|x l IH]; [done|]. rewrite fmap_cons, !filter_cons.
  rewrite toggled_id. destruct (decide (id x ≠ j)); by rewrite IH.
Qed.

(** X9.  Toggling the collapse flag for two ids gives the same list in
    either order, on every list, also one with repeated ids. *)
Theorem toggleCollapse_commutes (attribute : list Item) (i j : Z) :
  ∃ ri rj r,
    toggleCollapse attribute i = [SetAttributes (Some <$> ri)] ∧
    toggleCollapse attribute j = [SetAttributes (Some <$> rj)] ∧
    toggleCollapse ri j = [SetAttributes (Some <$> r)] ∧
    toggleCollapse rj i = [SetAttributes (Some <$> r)].
Proof.
  exists (toggled i <$> attribute), (toggled j <$> attribute),
    (toggled j <$> (toggled i <$> attribute)).
  rewrite !toggleCollapse_calls. repeat (split; [done|]).
  do 3 f_equal. rewrite <- !list_fmap_compose. apply list_fmap_ext.
  intros k x _. simpl. apply toggled_commute.
Qed.

(** X10.  Collapsing and removing do not interfere: toggling an id and then
    removing an id emits the list that removing first and toggling then
    emits, and a toggle does not change whether removal is disabled. *)
Theorem toggleCollapse_removeItem_commute (control : option Control)
    (attribute : list Item) (i j : Z) :
  isDisabledRemove control attribute = false →
  ∃ toggledList removed r,
    toggleCollapse attribute i = [SetAttributes (Some <$> toggledList)] ∧
    isDisabledRemove control toggledList = false ∧
    removeItem control toggledList j = [SetAttributes (Some <$> r)] ∧
    removeItem control attribute j = [SetAttributes (Some <$> removed)] ∧
    toggleCollapse removed i = [SetAttributes (Some <$> r)].
Proof.
  intros Hen.
  exists (toggled i <$> attribute), (filter (λ x, id x ≠ j) attribute),
    (toggled i <$> filter (λ x, id x ≠ j) attribute).
  assert (isDisabledRemove control (toggled i <$> attribute) = false) as Hen'.
  { unfold isDisabledRemove in *. by rewrite length_fmap. }
  split; [done|]. split; [done|]. split.
  - rewrite removeItem_enabled by done.
    by rewrite filter_toggled.
  - split; [by apply removeItem_enabled | done].
Qed.

Lemma toggleCollapse_removeItem_commute_witness :
  let l := [mkItem 1 "A" 0 true; mkItem 2 "B" 0 false; mkItem 3 "C" 0 true] in
  ∃ toggledList removed r,
    toggleCollapse l 2 = [SetAttributes (Some <$> toggledList)] ∧
    isDisabledRemove None toggledList = false ∧
    removeItem None toggledList 3 = [SetAttributes (Some <$> r)] ∧
    removeItem None l 3 = [SetAttributes (Some <$> removed)] ∧
    toggleCollapse removed 2 = [SetAttributes (Some <$> r)].
Proof.
  intros l. apply (toggleCollapse_removeItem_commute None l 2 3). reflexivity.
Defined.

(** ** Runs of the mounted component *)

Lemma cycle_set_attributes height batched fuel s cells :
  settled s →
  cycle height batched (S fuel) s [SetAttributes cells] =
    l ← mapM (λ cell, cell) cells;
    Some (mkMounted l (S (st_array s)) false (Some (S (st_array s), false))
            (st_log s ++ [Committed l])).
Proof.
  intros [Hflag Hdeps]. rewrite cycle_S.
  destruct batched; cbn -[cycle commit]; destruct (mapM _ cells) as [l|];
    try done; cbn -[cycle commit]; by rewrite commit_flag_down.
Qed.

Lemma mapM_cells_inv (cells : list (option Item)) (l : list Item) :
  mapM (λ cell, cell) cells = Some l → cells = Some <$> l.
Proof.
  intros Hm. symmetry.
  apply (mapM_fmap_Some_inv (λ cell, cell) Some cells l Hm).
  by intros x y ->.
Qed.

(** The list a settled component holds after an event is the list it held
    before, or the list of items the event asked [setAttributes] to
    store. *)
Lemma dispatch_attribute height control batched fuel s ev s' :
  settled s →
  dispatch height control batched (S (S fuel)) s ev = Some s' →
  st_attribute s' = st_attribute s ∨
  SetAttributes (Some <$> st_attribute s') ∈ react control (st_attribute s) ev.
Proof.
  intros Hs. destruct (isAdd ev) eqn:Hev.
  - destruct ev as [[now| | | |]|]; try done.
    rewrite dispatch_add by done. intros [= <-]. right. simpl.
    apply list_elem_of_here.
  - unfold dispatch.
    destruct (react_other control (st_attribute s) ev Hev) as [->|[cells ->]].
    { intros [= <-]. by left. }
    rewrite cycle_set_attributes by done.
    destruct (mapM _ cells) as [l|] eqn:Hm; [|done]. simpl. intros [= <-].
    right. simpl. rewrite (mapM_cells_inv _ _ Hm). apply list_elem_of_here.
Qed.

(** The ids of what a handler emits are ids of the list, or the new id. *)
Lemma handler_emits_ids (control : option Control) (attribute : list Item)
    (op : Op) (r : list Item) (x : Item) :
  SetAttributes (Some <$> r) ∈ handler control attribute op → x ∈ r →
  id x ∈ id <$> attribute ∨
  (assignsId op = true ∧ id x = JsNumber.add (getMaxId attribute) 1).
Proof.
  intros Hin Hx. destruct op as [now|i|i|i|event]; simpl in Hin.
  - unfold addItem in Hin.
    apply elem_of_cons in Hin as [[= Heq%(inj (fmap Some))]|Hin];
      [|by apply list_elem_of_singleton in Hin].
    subst r. apply elem_of_app in Hx as [Hx|Hx].
    + left. by apply list_elem_of_fmap_2.
    + apply list_elem_of_singleton in Hx as ->. by right.
  - left. unfold removeItem in Hin.
    destruct (isDisabledRemove control attribute);
      [by apply elem_of_nil in Hin|].
    apply list_elem_of_singleton in Hin as [= ->%(inj (fmap Some))].
    apply list_elem_of_filter in Hx as [_ Hx]. by apply list_elem_of_fmap_2.
  - unfold duplicateItem in Hin.
    destruct (find _ attribute) as [src|]; [|by apply elem_of_nil in Hin].
    apply list_elem_of_singleton in Hin as [= ->%(inj (fmap Some))].
    apply elem_of_app in Hx as [Hx|Hx].
    + left. by apply list_elem_of_fmap_2.
    + apply list_elem_of_singleton in Hx as ->. by right.
  - left. rewrite toggleCollapse_calls in Hin.
    apply list_elem_of_singleton in Hin as [= ->%(inj (fmap Some))].
    apply list_elem_of_fmap in Hx as (y & -> & Hy). rewrite toggled_id.
    by apply list_elem_of_fmap_2.
  - left. destruct (handleDragEnd_emits _ _ _ Hin) as [(r' & Heq & Hperm)|[_ Heq]].
    + apply (inj (fmap Some)) in Heq as ->. rewrite <- Hperm.
      by apply list_elem_of_fmap_2.
    + by destruct r as [|? [|? ?]].
Qed.

(** X11.  The invariants of the item list hold all along a run: mount the
    component on a non-empty list with pairwise distinct ids, the
    prevent-empty policy on, the ids safe integers with room for one new id
    for each event to come, and let any of its handlers fire in any order;
    if the run does not fail, the list held at the end is not empty and its
    ids are pairwise distinct. *)
Theorem run_keeps_list_invariants (height : list Item → Z)
    (control : option Control) (batched : bool) (fuel : nat)
    (attribute : list Item) (ops : list Op) (s : Mounted) :
  2 ≤ fuel → preventEmptyEnabled control →
  NoDup (id <$> attribute) → attribute ≠ [] →
  (∀ x, x ∈ attribute →
     (- 2 ^ 53 < id x ∧ id x + Z.of_nat (length ops) < 2 ^ 53)%Z) →
  (s0 ← mount height batched fuel attribute;
   run height control batched fuel s0 (Fire <$> ops)) = Some s →
  st_attribute s ≠ [] ∧ NoDup (id <$> st_attribute s).
Proof.
  intros Hfuel Hon Hnd Hne Hroom Hrun. destruct fuel as [|[|fuel]]; [lia..|].
  destruct (mount height batched (S (S fuel)) attribute) as [s0|] eqn:Hm; [|done].
  simpl in Hrun. destruct (mount_settled _ _ _ _ _ Hm) as [Hs0 _].
  assert (st_attribute s0 = attribute) as Hattr.
  { unfold mount in Hm. rewrite commit_flag_down in Hm by done.
    by injection Hm as <-. }
  rewrite <- Hattr in Hnd, Hne, Hroom. clear Hm Hattr.
  revert s0 Hs0 Hnd Hne Hroom Hrun.
  induction ops as [|op ops IH]; intros s0 Hs0 Hnd Hne Hroom.
  - by intros [= <-].
  - rewrite fmap_cons. cbn [run].
    destruct (dispatch height control batched (S (S fuel)) s0 (Fire op))
      as [s1|] eqn:Hd; [|done].
    simpl. destruct (dispatch_settled _ _ _ _ _ _ _ Hs0 Hd) as [Hs1 _].
    assert (JsNumber.isSafeInteger (getMaxId (st_attribute s0))) as Hmax.
    { pose proof (getMaxId_isMaxId (st_attribute s0)) as Hm.
      destruct (st_attribute s0) as [|y l] eqn:Hl; [done|].
      destruct Hm as [(z & Hz & Hin)%list_elem_of_fmap _].
      specialize (Hroom z Hin). rewrite length_cons in Hroom.
      unfold JsNumber.isSafeInteger. rewrite Hz. lia. }
    destruct (dispatch_attribute _ _ _ _ _ _ _ Hs0 Hd) as [Heq|Hin].
    + apply IH; [done|by rewrite Heq..|].
      intros x Hx. rewrite Heq in Hx. specialize (Hroom x Hx).
      rewrite length_cons in Hroom. lia.
    + simpl in Hin.
      assert (assignsId op = true → safeMaxId (st_attribute s0)) as Hsafe
        by (intros _; by apply safeMaxId_getMaxId).
      destruct (handler_emits_nonempty _ _ _ _ Hon Hnd Hne Hsafe Hin)
        as (r & Heq%(inj (fmap Some)) & Hr & Hdr).
      apply IH; [done|by rewrite Heq..|].
      intros x Hx.
      destruct (handler_emits_ids _ _ _ _ x Hin Hx)
        as [(y & Hy & Hyin)%list_elem_of_fmap|[_ Hfresh]].
      * specialize (Hroom y Hyin). rewrite length_cons in Hroom. lia.
      * rewrite add_one_safe in Hfresh by done.
        pose proof (getMaxId_isMaxId (st_attribute s0)) as Hm.
        destruct (st_attribute s0) as [|y l] eqn:Hl; [done|].
        destruct Hm as [(z & Hz & Hzin)%list_elem_of_fmap _].
        specialize (Hroom z Hzin). rewrite length_cons in Hroom. lia.
Qed.

Lemma run_keeps_list_invariants_witness :
  let height := λ l : list Item, (40 * Z.of_nat (length l))%Z in
  let a := mkItem 1 "A" 0 true in
  let s := mkMounted [mkItem 2 "New Item" 7 true] 2 false (Some (2, false))
             [Committed [a]; Committed [a; mkItem 2 "New Item" 7 true];
              Scrolled 80; Committed [a; mkItem 2 "New Item" 7 true];
              Committed [mkItem 2 "New Item" 7 true]] in
  st_attribute s ≠ [] ∧ NoDup (id <$> st_attribute s).
Proof.
  intros height a s.
  apply (run_keeps_list_invariants height None true 2 [a]
           [Add 7; Remove 1; Remove 2] s).
  - lia.
  - intros c Hc. discriminate Hc.
  - apply (bool_decide_unpack _). vm_compute. exact I.
  - discriminate.
  - intros x Hx. apply list_elem_of_singleton in Hx as ->. simpl. lia.
  - reflexivity.
Defined.

Lemma handleDragEnd_keeps_nonempty (attribute : list Item) a b :
  attribute ≠ [] → a ≠ b →
  ∃ r, handleDragEnd attribute (mkDragEnd a (Some b)) =
         [SetAttributes (Some <$> r)].
Proof.
  intros Hne Hab.
  destruct (handleDragEnd_emits attribute (mkDragEnd a (Some b))
              (arrayMove None (Some <$> attribute)
                 (findIndex (hasId a) attribute) (findIndex (hasId b) attribute)))
    as [(r & Hr & _)|[-> _]]; [|by exists r; rewrite handleDragEnd_calls, Hr|done].
  rewrite handleDragEnd_calls by done. apply list_elem_of_here.
Qed.

(** X12.  The one way an event can break the mounted component: from a
    settled component, with fuel for two rounds, handling an event fails
    exactly when the list is empty and the event is a drag end with a
    target other than the dragged id, the case in which [handleDragEnd]
    stores [[undefined]]. *)
Theorem dispatch_fails_only_on_empty_drag (height : list Item → Z)
    (control : option Control) (batched : bool) (fuel : nat) (s : Mounted)
    (ev : Event) :
  2 ≤ fuel → settled s →
  (dispatch height control batched fuel s ev = None ↔
   st_attribute s = [] ∧
   ∃ a b, ev = Fire (DragEnd (mkDragEnd a (Some b))) ∧ a ≠ b).
Proof.
  intros Hfuel Hs. destruct fuel as [|[|fuel]]; [lia..|].
  destruct (isAdd ev) eqn:Hev.
  { destruct ev as [[now| | | |]|]; try done.
    rewrite dispatch_add by done. split; [done|].
    by intros (_ & a & b & [=] & _). }
  unfold dispatch.
  assert (∀ cells,
    cycle height batched (S (S fuel)) s [SetAttributes cells] = None ↔
    ¬ ∃ l, cells = Some <$> l) as Hcycle.
  { intros cells. rewrite cycle_set_attributes by done.
    destruct (mapM _ cells) as [l|] eqn:Hm; simpl.
    - split; [done|]. intros []. exists l. by apply mapM_cells_inv.
    - split; [|done]. intros _ [l ->]. by rewrite mapM_cells in Hm. }
  assert (∀ l : list Item,
    cycle height batched (S (S fuel)) s [SetAttributes (Some <$> l)] ≠ None)
    as Hitems.
  { intros l. rewrite Hcycle. intros Hno. apply Hno. by exists l. }
  destruct ev as [[now|i|i|i|event]|l]; cbn [react handler]; try done.
  - unfold removeItem. destruct (isDisabledRemove _ _).
    + split; [done|]. by intros (_ & a & b & [=] & _).
    + split; [by intros ?%Hitems|]. by intros (_ & a & b & [=] & _).
  - unfold duplicateItem. destruct (find _ _).
    + split; [by intros ?%Hitems|]. by intros (_ & a & b & [=] & _).
    + split; [done|]. by intros (_ & a & b & [=] & _).
  - rewrite toggleCollapse_calls.
    split; [by intros ?%Hitems|]. by intros (_ & a & b & [=] & _).
  - destruct event as [a [b|]].
    2:{ split; [done|]. by intros (_ & a' & b' & [=] & _). }
    destruct (decide (a = b)) as [->|Hab].
    { unfold handleDragEnd. simpl. rewrite decide_True by done.
      split; [done|]. intros (_ & a' & b' & [= -> ->] & Hne). done. }
    destruct (decide (st_attribute s = [])) as [Hnil|Hnonnil].
    + rewrite Hnil, handleDragEnd_empty by done. rewrite Hcycle. split.
      * intros _. split; [done|]. by exists a, b.
      * intros _ [l Hl]. by destruct l.
    + destruct (handleDragEnd_keeps_nonempty (st_attribute s) a b Hnonnil Hab)
        as (r & ->).
      split; [by intros ?%Hitems|]. by intros [? _].
  - split; [by intros ?%Hitems|]. by intros (_ & a & b & [=] & _).
Qed.

Lemma dispatch_fails_only_on_empty_drag_witness :
  let height := λ l : list Item, (40 * Z.of_nat (length l))%Z in
  let s := mkMounted [] 0 false (Some (0, false)) [Committed []] in
  let ev := Fire (DragEnd (mkDragEnd (UNumber 1) (Some (UNumber 2)))) in
  dispatch height None true 2 s ev = None ↔
  st_attribute s = [] ∧
  ∃ a b, ev = Fire (DragEnd (mkDragEnd a (Some b))) ∧ a ≠ b.
Proof.
  intros height s ev.
  apply (dispatch_fails_only_on_empty_drag height None true 2 s ev).
  - lia.
  - split; reflexivity.
Defined.

(** * Further properties of the colour popover *)

Import Popover.

(** The entry stored under [attrKey] after a change is built from the
    props the handler closed over alone. *)
Lemma onChange_stored_entry attrKey elementName closed stored elementColors
    colorKey value :
  setAttributes
    (onChange attrKey elementName closed elementColors colorKey value)
    stored !! attrKey =
  Some (<[ elementName :=
             <[ colorKey := nullish value (JString EmptyString) ]>
               (spread elementColors) ]>
          (spread (closed !! attrKey))).
Proof.
  unfold setAttributes, onChange.
  apply lookup_union_Some_l, lookup_singleton_eq.
Qed.

Lemma colorAt_after_onChange attrKey elementName closed stored elementColors
    colorKey value k :
  colorAt
    (setAttributes
       (onChange attrKey elementName closed elementColors colorKey value) stored)
    attrKey elementName k =
  <[ colorKey := nullish value (JString EmptyString) ]> (spread elementColors) !! k.
Proof.
  unfold colorAt, elementAt. rewrite onChange_stored_entry. simpl.
  by rewrite lookup_insert_eq.
Qed.

(** X13.  [onChange] replaces the whole entry under [attrKey] by one built
    from the [attributes] it closed over: whatever the store holds by the
    time [setAttributes] runs, the entries of the other elements under
    [attrKey] are afterwards those of the closed-over [attributes], not
    those of the store; the other attributes are those of the store. *)
Theorem onChange_overwrites_from_props (attrKey elementName : string)
    (closed stored : gmap string (gmap string (gmap string JsValue)))
    (elementColors : option (gmap string JsValue))
    (colorKey : string) (value : JsValue) :
  let after :=
    setAttributes
      (onChange attrKey elementName closed elementColors colorKey value)
      stored in
  (∀ n, n ≠ elementName →
     elementAt after attrKey n = elementAt closed attrKey n) ∧
  (∀ a, a ≠ attrKey → after !! a = stored !! a).
Proof.
  intros after. split.
  - intros n Hn. unfold elementAt, after. rewrite onChange_stored_entry. simpl.
    rewrite lookup_insert_ne by done. by destruct (closed !! attrKey).
  - intros a Ha. unfold after, setAttributes, onChange.
    rewrite lookup_union_r; [done|]. by apply lookup_singleton_ne.
Qed.

Lemma onChange_overwrites_from_props_witness :
  let closed : gmap string (gmap string (gmap string JsValue)) :=
    {[ "colors" := {[ "link" := {[ "text" := JString "#00f" ]} ]} ]} in
  let stored : gmap string (gmap string (gmap string JsValue)) :=
    {[ "colors" := {[ "link" := {[ "text" := JString "#f00" ]} ]} ]} in
  elementAt
    (setAttributes (onChange "colors" "button" closed None "text" (JString "#111"))
       stored) "colors" "link" =
  elementAt closed "colors" "link".
Proof.
  intros closed stored.
  apply (proj1 (onChange_overwrites_from_props "colors" "button" closed stored
                  None "text" (JString "#111"))).
  discriminate.
Defined.

(** X14.  Two colour changes made from the same render do not add up: when
    [onChange] runs for the key [k1] and then, with the same props, for
    another key [k2], the stored colour for [k2] is the second value and
    the one for [k1] is back to what [elementColors] holds; the first
    change is lost. *)
Theorem onChange_same_render_loses_first (attrKey elementName : string)
    (attributes : gmap string (gmap string (gmap string JsValue)))
    (elementColors : option (gmap string JsValue))
    (k1 k2 : string) (v1 v2 : JsValue) :
  k1 ≠ k2 →
  let first :=
    setAttributes (onChange attrKey elementName attributes elementColors k1 v1)
      attributes in
  let second :=
    setAttributes (onChange attrKey elementName attributes elementColors k2 v2)
      first in
  colorAt first attrKey elementName k1 = Some (nullish v1 (JString EmptyString)) ∧
  colorAt second attrKey elementName k2 = Some (nullish v2 (JString EmptyString)) ∧
  colorAt second attrKey elementName k1 = spread elementColors !! k1.
Proof.
  intros Hk first second. unfold first, second.
  rewrite !colorAt_after_onChange, !lookup_insert_eq.
  by rewrite lookup_insert_ne.
Qed.

Lemma onChange_same_render_loses_first_witness :
  let first :=
    setAttributes (onChange "colors" "button" ∅ None "text" (JString "#111")) ∅ in
  let second :=
    setAttributes (onChange "colors" "button" ∅ None "background" (JString "#eee"))
      first in
  colorAt first "colors" "button" "text" = Some (JString "#111") ∧
  colorAt second "colors" "button" "background" = Some (JString "#eee") ∧
  colorAt second "colors" "button" "text" = None.
Proof.
  intros first second.
  apply (onChange_same_render_loses_first "colors" "button" ∅ None
           "text" "background" (JString "#111") (JString "#eee")).
  discriminate.
Defined.

(** X15.  Changes made one render after the other add up: when the second
    [onChange] closes over the attributes the first one left and over the
    entry stored for the element, both colours are stored afterwards. *)
Theorem onChange_next_render_keeps_first (attrKey elementName : string)
    (attributes : gmap string (gmap string (gmap string JsValue)))
    (elementColors : option (gmap string JsValue))
    (k1 k2 : string) (v1 v2 : JsValue) :
  k1 ≠ k2 →
  let first :=
    setAttributes (onChange attrKey elementName attributes elementColors k1 v1)
      attributes in
  let second :=
    setAttributes
      (onChange attrKey elementName first (elementAt first attrKey elementName)
         k2 v2) first in
  colorAt second attrKey elementName k1 = Some (nullish v1 (JString EmptyString)) ∧
  colorAt second attrKey elementName k2 = Some (nullish v2 (JString EmptyString)) ∧
  (∀ k, k ≠ k1 → k ≠ k2 →
     colorAt second attrKey elementName k = spread elementColors !! k).
Proof.
  intros Hk first second.
  assert (elementAt first attrKey elementName =
          Some (<[ k1 := nullish v1 (JString EmptyString) ]> (spread elementColors)))
    as Hfirst.
  { unfold elementAt, first. rewrite onChange_stored_entry. simpl.
    by rewrite lookup_insert_eq. }
  unfold second. rewrite Hfirst. split; [|split].
  - rewrite colorAt_after_onChange. simpl.
    by rewrite lookup_insert_ne, lookup_insert_eq.
  - rewrite colorAt_after_onChange. by rewrite lookup_insert_eq.
  - intros k Hk1 Hk2. rewrite colorAt_after_onChange. simpl.
    by rewrite !lookup_insert_ne.
Qed.

Lemma onChange_next_render_keeps_first_witness :
  let first :=
    setAttributes (onChange "colors" "button" ∅ None "text" (JString "#111")) ∅ in
  let second :=
    setAttributes
      (onChange "colors" "button" first (elementAt first "colors" "button")
         "background" JUndefined) first in
  colorAt second "colors" "button" "text" = Some (JString "#111") ∧
  colorAt second "colors" "button" "background" = Some (JString EmptyString) ∧
  (∀ k, k ≠ "text" → k ≠ "background" →
     colorAt second "colors" "button" k = None).
Proof.
  intros first second.
  apply (onChange_next_render_keeps_first "colors" "button" ∅ None
           "text" "background" (JString "#111") JUndefined).
  discriminate.
Defined.

(** X16.  Nothing stored yet: when [attributes[attrKey]] and
    [elementColors] are both [undefined], [onChange] stores under [attrKey]
    an object with the one element and, for it, the one colour. *)
Theorem onChange_creates_entry (attrKey elementName : string)
    (attributes : gmap string (gmap string (gmap string JsValue)))
    (colorKey : string) (value : JsValue) :
  attributes !! attrKey = None →
  setAttributes (onChange attrKey elementName attributes None colorKey value)
    attributes !! attrKey =
  Some {[ elementName := {[ colorKey := nullish value (JString EmptyString) ]} ]}.
Proof.
  intros Hnone. rewrite onChange_stored_entry, Hnone. simpl.
  by rewrite !insert_empty.
Qed.

Lemma onChange_creates_entry_witness :
  setAttributes (onChange "colors" "button" ∅ None "text" JNull) ∅ !! "colors" =
  Some {[ "button" := {[ "text" := JString EmptyString ]} ]}.
Proof. apply (onChange_creates_entry "colors" "button" ∅ "text" JNull). reflexivity. Defined.

(** X17.  Choosing the same colour again changes nothing: repeating a
    change, with the props of the next render, leaves the attributes as the
    first change left them. *)
Theorem onChange_repeat (attrKey elementName : string)
    (attributes : gmap string (gmap string (gmap string JsValue)))
    (elementColors : option (gmap string JsValue))
    (colorKey : string) (value : JsValue) :
  let first :=
    setAttributes (onChange attrKey elementName attributes elementColors colorKey value)
      attributes in
  setAttributes
    (onChange attrKey elementName first (elementAt first attrKey elementName)
       colorKey value) first = first.
Proof.
  intros first.
  pose proof (onChange_stored_entry attrKey elementName attributes attributes
                elementColors colorKey value) as Hentry.
  fold first in Hentry.
  assert (elementAt first attrKey elementName =
          Some (<[ colorKey := nullish value (JString EmptyString) ]>
                  (spread elementColors))) as Hfirst.
  { unfold elementAt. rewrite Hentry. simpl. by rewrite lookup_insert_eq. }
  unfold setAttributes at 1. unfold onChange at 1.
  rewrite Hfirst, Hentry. simpl.
  rewrite <- insert_union_singleton_l.
  rewrite !insert_insert_eq. by apply insert_id.
Qed.
